(** * VoteServer: a shallow embedding of [src/server.js]

    The server keeps three collections (a [Map] of connected clients, a [Map]
    of vote counts and a [Set] of clients that voted) and reacts to the
    events of the WebSocket library.  Every event handler runs to completion
    on the single JavaScript thread, so a handler is a function from the
    server object before the event to the server object after it, together
    with the list of [sendToClient] calls it made.

    Not modelled: the listening port and its retry, and the [console.log]
    lines, except for the string conversion of [message.type] at the head of
    [handleMessage], which can raise.  What the handlers read from their
    surroundings (the state of each socket, whether the engine's stack
    suffices to convert a value to a string) is a parameter, [Env]. *)

From stdpp Require Import gmap strings list.

Local Open Scope string_scope.
Local Open Scope list_scope.
Set Warnings "-register-all,-clear-no-such-hyp".

(** ** Values *)

(** A client identifier is the string produced by [uuidv4()]. *)
Abbreviation ClientId := string (only parsing).

(** A [ws] connection object, named by its identity. *)
Abbreviation WebSocket := nat (only parsing).

(** [ws.readyState]. *)
Inductive ReadyState := CONNECTING | OPEN | CLOSING | CLOSED.

Global Instance ReadyState_eq_dec : EqDecision ReadyState.
Proof. solve_decision. Defined.

(** The result of [JSON.parse].  A number is kept as its literal: the server
    never computes with a number it received.  [JObj] lists the own
    properties of the parsed object, each name once. *)
Inductive JSON :=
| JNull
| JBool (b : bool)
| JNum (literal : string)
| JStr (s : string)
| JArr (items : list JSON)
| JObj (fields : list (string * JSON)).

(** A vote count as JavaScript holds it: an exact integer (counts stay far
    below 2^53), or [NaN], which is what [undefined + 1] evaluates to. *)
Inductive JsNum := Count (n : nat) | NaN.

Global Instance JsNum_eq_dec : EqDecision JsNum.
Proof. solve_decision. Defined.

(** What a handler run finds around it: [readyState] of every socket, and
    for every array whether converting it to a string exhausts the call
    stack of the engine (the conversion recurses through nested arrays, and
    the depth the stack allows is the engine's). *)
Record Env := mkEnv {
  readyState : nat → ReadyState;
  stackOverflows : JSON → bool
}.

(** ** Insertion-ordered [Map] with string keys

    A JavaScript [Map] iterates in insertion order; [set] on a present key
    keeps the key's position, [delete] removes the entry. *)
Section JsMap.
Context {V : Type}.

Fixpoint Map_get (k : string) (m : list (string * V)) : option V :=
  match m with
  | [] => None
  | (k', v) :: m' => if decide (k = k') then Some v else Map_get k m'
  end.

Fixpoint Map_set (k : string) (v : V) (m : list (string * V))
  : list (string * V) :=
  match m with
  | [] => [(k, v)]
  | (k', v') :: m' =>
      if decide (k = k') then (k, v) :: m' else (k', v') :: Map_set k v m'
  end.

Fixpoint Map_delete (k : string) (m : list (string * V))
  : list (string * V) :=
  match m with
  | [] => []
  | (k', v') :: m' =>
      if decide (k = k') then Map_delete k m' else (k', v') :: Map_delete k m'
  end.
End JsMap.

(** ** Messages *)

(** One entry [{candidate, votes}] of a tally. *)
Abbreviation TallyEntry := (string * JsNum)%type (only parsing).

(** Server to client messages, by their [type] field. *)
Inductive ServerMsg :=
| welcome (clientId : ClientId) (candidates : list string)
          (tally : list TallyEntry)
| vote_confirmed (candidate : string)
| tally_update (tally : list TallyEntry) (totalVotes : nat)
| error (message : string).

(** One call [sendToClient(ws, message)] with a socket object: [delivered]
    is the call's result, true when [ws.send] was reached. *)
Record Send := mkSend {
  target : WebSocket;
  payload : ServerMsg;
  delivered : bool
}.

(** ** The server object *)

Record VoteServer := mkServer {
  clients : list (ClientId * WebSocket);
  votes : list (string * JsNum);
  votedClients : gset ClientId;
  candidates : list string
}.

Definition with_clients (f : list (ClientId * WebSocket) →
                             list (ClientId * WebSocket)) (s : VoteServer) :=
  mkServer (f (clients s)) (votes s) (votedClients s) (candidates s).

Definition with_votes (f : list (string * JsNum) → list (string * JsNum))
    (s : VoteServer) :=
  mkServer (clients s) (f (votes s)) (votedClients s) (candidates s).

Definition with_votedClients (f : gset ClientId → gset ClientId)
    (s : VoteServer) :=
  mkServer (clients s) (votes s) (f (votedClients s)) (candidates s).

(** ** Handler computations

    A method body reads and writes the server object, calls [sendToClient],
    and ends normally or by a raised exception.  An exception undoes
    nothing: the object and the sends made so far stay. *)

Inductive JsError := TypeError | SyntaxError | RangeError.

Inductive Completion (A : Type) :=
| Normal (a : A)
| Throw (e : JsError).
Arguments Normal {A} a.
Arguments Throw {A} e.

Record Result (A : Type) := mkResult {
  completion : Completion A;
  server : VoteServer;
  sends : list Send
}.
Arguments mkResult {A} _ _ _.
Arguments completion {A} _.
Arguments server {A} _.
Arguments sends {A} _.

Definition M (A : Type) : Type := VoteServer → Result A.

Global Instance M_ret : MRet M := λ A a s, mkResult (Normal a) s [].

Global Instance M_bind : MBind M := λ A B f m s,
  let r := m s in
  match completion r with
  | Normal a =>
      let r' := f a (server r) in
      mkResult (completion r') (server r') (sends r ++ sends r')
  | Throw e => mkResult (Throw e) (server r) (sends r)
  end.

Definition throw {A} (e : JsError) : M A := λ s, mkResult (Throw e) s [].

(** [try { body } catch (error) { handler }] *)
Definition try_catch {A} (body : M A) (handler : JsError → M A) : M A := λ s,
  let r := body s in
  match completion r with
  | Normal a => r
  | Throw e =>
      let r' := handler e (server r) in
      mkResult (completion r') (server r') (sends r ++ sends r')
  end.

Definition get_this : M VoteServer := λ s, mkResult (Normal s) s [].
Definition update (f : VoteServer → VoteServer) : M unit :=
  λ s, mkResult (Normal tt) (f s) [].
Definition emit (o : Send) : M unit := λ s, mkResult (Normal tt) s [o].

(** ** Reading the parsed message *)

(** [message.name] for the two names the server reads, [type] and
    [candidate]: neither is defined on the prototype of an object, array,
    string, number or boolean, so the value is the own property when the
    message is an object that has it, and [undefined] ([None]) otherwise. *)
Definition prop (message : JSON) (name : string) : option JSON :=
  match message with
  | JObj fields => Map_get name fields
  | _ => None
  end.

(** Reading a property of [null] raises a [TypeError]. *)
Definition getProp (message : JSON) (name : string) : M (option JSON) :=
  match message with
  | JNull => throw TypeError
  | _ => mret (prop message name)
  end.

(** [v === 'literal'], as the [case] labels of a [switch] compare. *)
Definition strictEquals (v : option JSON) (literal : string) : bool :=
  match v with
  | Some (JStr s) => bool_decide (s = literal)
  | _ => false
  end.

(** Whether converting the value to a string raises a [TypeError]: a parsed
    object with an own [toString] property (never a function) has no usable
    [toString] nor [valueOf]; an array joins the conversions of its items,
    [null] giving the empty string. *)
Fixpoint toStringThrows (v : JSON) : bool :=
  match v with
  | JArr items => existsb toStringThrows items
  | JObj fields => bool_decide ("toString" ∈ fields.*1)
  | _ => false
  end.

Definition isArray (v : JSON) : bool :=
  match v with JArr _ => true | _ => false end.

(** The exception that converting the value to a string raises, if any: the
    [TypeError] above, or for an array a [RangeError] when the recursion
    through its nesting exhausts the stack. *)
Definition conversionFailure (env : Env) (v : JSON) : option JsError :=
  if toStringThrows v then Some TypeError
  else if isArray v && stackOverflows env v then Some RangeError
  else None.

(** The template literal [`... ${v} ...`]; [undefined] prints as such. *)
Definition template (env : Env) (v : option JSON) : M unit :=
  match v with
  | Some j =>
      match conversionFailure env j with
      | Some e => throw e
      | None => mret tt
      end
  | None => mret tt
  end.

(** [JSON.parse(data)]: [None] stands for a frame that [JSON.parse] rejects
    with an exception, as it does when the frame is not JSON text. *)
Definition JSON_parse (data : option JSON) : M JSON :=
  match data with
  | Some j => mret j
  | None => throw SyntaxError
  end.

(** [this.candidates.includes(candidate)] compares by SameValueZero: only a
    string can equal one of the candidate names. *)
Definition includes (cs : list string) (candidate : option JSON)
  : option string :=
  match candidate with
  | Some (JStr c) => if decide (c ∈ cs) then Some c else None
  | _ => None
  end.

(** [this.votes.get(candidate) + 1] *)
Definition plus_one (v : option JsNum) : JsNum :=
  match v with
  | Some (Count n) => Count (S n)
  | _ => NaN
  end.

(** ** The methods of [VoteServer] *)

Definition initializeCandidates : M unit :=
  this ← get_this;
  update (with_votes (λ vs,
    foldl (λ m candidate, Map_set candidate (Count 0) m) vs (candidates this))).

(** [Array.from(this.votes.entries()).map(...)] *)
Definition getTally (s : VoteServer) : list TallyEntry := votes s.

Section Handlers.
(** The surroundings while the handler runs. *)
Variable env : Env.

(** With [ws] undefined, reading [ws.readyState] raises outside the [try].
    On an open socket [ws.send] queues the frame; it does not raise, so the
    call returns true exactly when the socket is open. *)
Definition sendToClient (ws : option WebSocket) (message : ServerMsg)
  : M bool :=
  match ws with
  | None => throw TypeError
  | Some w =>
      let ok := bool_decide (readyState env w = OPEN) in
      emit (mkSend w message ok);; mret ok
  end.

Definition broadcastTally : M unit :=
  this ← get_this;
  let tallyMessage :=
    tally_update (getTally this) (size (votedClients this)) in
  foldr (λ entry rest, sendToClient (Some entry.2) tallyMessage;; rest)
        (mret tt) (clients this).

Definition sendTallyToClient (clientId : ClientId) : M unit :=
  this ← get_this;
  match Map_get clientId (clients this) with
  | Some ws =>
      sendToClient (Some ws)
        (tally_update (getTally this) (size (votedClients this)));;
      mret tt
  | None => mret tt
  end.

Definition handleVote (clientId : ClientId) (message : JSON) : M unit :=
  this ← get_this;
  if decide (clientId ∈ votedClients this) then
    sendToClient (Map_get clientId (clients this))
      (error "You have already voted!");;
    mret tt
  else
    candidate ← getProp message "candidate";
    match includes (candidates this) candidate with
    | None =>
        sendToClient (Map_get clientId (clients this))
          (error "Invalid candidate selected!");;
        mret tt
    | Some candidate =>
        update (with_votes (λ vs,
          Map_set candidate (plus_one (Map_get candidate vs)) vs));;
        update (with_votedClients (λ vc, vc ∪ {[clientId]}));;
        this ← get_this;
        sendToClient (Map_get clientId (clients this))
          (vote_confirmed candidate);;
        broadcastTally
    end.

Definition handleMessage (clientId : ClientId) (message : JSON) : M unit :=
  type ← getProp message "type";
  template env type;;
  if strictEquals type "vote" then handleVote clientId message
  else if strictEquals type "request_tally" then sendTallyToClient clientId
  else
    this ← get_this;
    sendToClient (Map_get clientId (clients this))
      (error "Unknown message type");;
    mret tt.

(** [server.on('connection', (ws, req) => ...)] with [clientId] the
    identifier drawn by [uuidv4()]. *)
Definition onConnection (clientId : ClientId) (ws : WebSocket) : M unit :=
  update (with_clients (Map_set clientId ws));;
  this ← get_this;
  sendToClient (Some ws)
    (welcome clientId (candidates this) (getTally this));;
  mret tt.

(** [ws.on('message', (data) => ...)] of the connection [clientId], [ws]. *)
Definition onMessage (clientId : ClientId) (ws : WebSocket)
    (data : option JSON) : M unit :=
  try_catch
    (message ← JSON_parse data; handleMessage clientId message)
    (λ _, sendToClient (Some ws) (error "Invalid message format");; mret tt).

(** [ws.on('close', () => ...)] *)
Definition onClose (clientId : ClientId) : M unit :=
  update (with_clients (Map_delete clientId));;
  update (with_votedClients (λ vc, vc ∖ {[clientId]})).

(** [ws.on('error', ...)] only logs. *)
Definition onError (clientId : ClientId) : M unit := mret tt.
End Handlers.

(** [setupServer()] for a candidate list; the collections start empty. *)
Definition setupServerWith (cs : list string) : Result unit :=
  initializeCandidates (mkServer [] [] ∅ cs).

Definition defaultCandidates : list string :=
  ["Candidate A"; "Candidate B"; "Candidate C"].

Definition setupServer : Result unit := setupServerWith defaultCandidates.

(** ** Events and histories *)

(** What the WebSocket library delivers to the server's callbacks. *)
Inductive Event :=
| connection (clientId : ClientId) (ws : WebSocket)
| message (clientId : ClientId) (ws : WebSocket) (data : option JSON)
| close (clientId : ClientId)
| ws_error (clientId : ClientId).

(** An occurrence of an event, with the surroundings at that moment. *)
Record Occurrence := at_ {
  environment : Env;
  event : Event
}.

Definition dispatch (o : Occurrence) : M unit :=
  match event o with
  | connection clientId ws => onConnection (environment o) clientId ws
  | message clientId ws data => onMessage (environment o) clientId ws data
  | close clientId => onClose clientId
  | ws_error clientId => onError clientId
  end.

(** A history lists the occurrences so far, the latest first. *)
Definition History := list Occurrence.

Section Run.
(** The configured candidate list. *)
Variable cs : list string.

(** The server object after a history. *)
Fixpoint after (h : History) : VoteServer :=
  match h with
  | [] => server (setupServerWith cs)
  | o :: h' => server (dispatch o (after h'))
  end.

(** The sends of the latest handler run. *)
Definition lastSends (h : History) : list Send :=
  match h with
  | [] => []
  | o :: h' => sends (dispatch o (after h'))
  end.

(** Every identifier [uuidv4()] has produced. *)
Fixpoint issuedIds (h : History) : list ClientId :=
  match h with
  | [] => []
  | o :: h' =>
      match event o with
      | connection clientId _ => clientId :: issuedIds h'
      | _ => issuedIds h'
      end
  end.

(** Every socket object the library has handed over. *)
Fixpoint issuedSockets (h : History) : list WebSocket :=
  match h with
  | [] => []
  | o :: h' =>
      match event o with
      | connection _ ws => ws :: issuedSockets h'
      | _ => issuedSockets h'
      end
  end.

(** What the environment guarantees: a connection comes with a fresh
    identifier and a fresh socket object, and the callbacks of a
    connection fire only between its [connection] and its [close]. *)
Definition enabled (h : History) (e : Event) : bool :=
  match e with
  | connection clientId ws =>
      bool_decide ((clientId ∉ issuedIds h) ∧ (ws ∉ issuedSockets h))
  | message clientId ws _ =>
      bool_decide (Map_get clientId (clients (after h)) = Some ws)
  | close clientId | ws_error clientId =>
      bool_decide (is_Some (Map_get clientId (clients (after h))))
  end.

Fixpoint possible (h : History) : bool :=
  match h with
  | [] => true
  | o :: h' => possible h' && enabled h' (event o)
  end.

(** The sessions to which a vote was attributed, latest first: a handler
    run attributes a vote to its client when it adds the client to
    [votedClients]. *)
Definition marksVoted (s : VoteServer) (o : Occurrence) : list ClientId :=
  match event o with
  | message clientId _ _ =>
      if decide ((clientId ∉ votedClients s) ∧
                 (clientId ∈ votedClients (server (dispatch o s))))
      then [clientId] else []
  | _ => []
  end.

Fixpoint attributed (h : History) : list ClientId :=
  match h with
  | [] => []
  | o :: h' => marksVoted (after h') o ++ attributed h'
  end.
End Run.

(** The sum of the counts of a tally, when every count is a number. *)
Fixpoint tallySum (t : list TallyEntry) : option nat :=
  match t with
  | [] => Some 0
  | (_, Count n) :: t' => Nat.add n <$> tallySum t'
  | (_, NaN) :: _ => None
  end.

(** ** Sample runs *)

(** Every socket open, and stack enough for every conversion. *)
Definition allOpen : Env := mkEnv (λ _, OPEN) (λ _, false).

Definition vote_for (c : string) : option JSON :=
  Some (JObj [("type", JStr "vote"); ("candidate", JStr c)]).

Definition request_tally : option JSON :=
  Some (JObj [("type", JStr "request_tally")]).

(** A frame whose [type] is an array nested [depth] deep. *)
Definition nestedType (depth : nat) : option JSON :=
  Some (JObj [("type", Nat.iter depth (λ v, JArr [v]) (JArr []))]).

(** The scenario of the specification, continued: a first client connects
    and votes, a second one connects, the first one leaves, the second one
    asks for the tally. *)
Definition firstConnected : History :=
  [ at_ allOpen (connection "c1" 1) ].

Definition firstVoted : History :=
  at_ allOpen (message "c1" 1 (vote_for "Candidate B")) :: firstConnected.

Definition secondConnected : History :=
  at_ allOpen (connection "c2" 2) :: firstVoted.

Definition firstLeft : History :=
  at_ allOpen (close "c1") :: secondConnected.

Definition secondAsked : History :=
  at_ allOpen (message "c2" 2 request_tally) :: firstLeft.

(** ** Notions used in the statements *)

Definition isNull (j : JSON) : bool :=
  match j with JNull => true | _ => false end.

(** Whether the template literal raises on the value. *)
Definition conversionRaises (rs : Env) (v : option JSON) : bool :=
  match v with
  | Some j => toStringThrows j || (isArray j && stackOverflows rs j)
  | None => false
  end.

(** The record of a call [sendToClient(ws, msg)] in surroundings [rs]. *)
Definition sent (rs : Env) (ws : nat) (msg : ServerMsg) : Send :=
  mkSend ws msg (bool_decide (readyState rs ws = OPEN)).

(** The calls [broadcastTally] makes: one per registered client, in the
    order of the registry. *)
Definition fanout (rs : Env) (s : VoteServer) : list Send :=
  map (λ entry : string * nat,
         sent rs entry.2
           (tally_update (getTally s) (size (votedClients s))))
      (clients s).

(** The server object [handleVote] leaves when it records a vote. *)
Definition recorded (clientId candidate : string) (s : VoteServer)
  : VoteServer :=
  with_votedClients (λ vc, vc ∪ {[clientId]})
    (with_votes (λ vs,
       Map_set candidate (plus_one (Map_get candidate vs)) vs) s).

(** The candidate a message run records a vote for, if it records one. *)
Definition accepts (s : VoteServer) (clientId : string) (data : option JSON)
  : option string :=
  match data with
  | Some j =>
      if strictEquals (prop j "type") "vote" then
        if decide (clientId ∈ votedClients s) then None
        else includes (candidates s) (prop j "candidate")
      else None
  | None => None
  end.

(** The loop of [initializeCandidates]. *)
Definition zeroed (cs : list string) (m : list (string * JsNum))
  : list (string * JsNum) :=
  foldl (λ m candidate, Map_set candidate (Count 0) m) m cs.

(** The sum of the counts the server object holds. *)
Definition tallyTotal (s : VoteServer) : nat :=
  default 0 (tallySum (votes s)).

(** How many votes a history has counted for a session: by how much the
    runs of the message handler for that session have raised the sum of the
    counts. *)
Fixpoint votesCounted (cs : list string) (h : History) (clientId : string)
  : nat :=
  match h with
  | [] => 0
  | o :: h' =>
      match event o with
      | message sender _ _ =>
          if decide (sender = clientId)
          then tallyTotal (server (dispatch o (after cs h'))) -
               tallyTotal (after cs h')
          else 0
      | _ => 0
      end + votesCounted cs h' clientId
  end.

(** Whether a message is the confirmation of a vote for the candidate. *)
Definition confirms (candidate : string) (msg : ServerMsg) : bool :=
  match msg with
  | vote_confirmed c => bool_decide (c = candidate)
  | _ => false
  end.

(** How many votes for the candidate the server has confirmed: the calls
    of [sendToClient] with vote_confirmed of that candidate, over all handler
    runs of the history. *)
Fixpoint confirmed (cs : list string) (h : History) (candidate : string)
  : nat :=
  match h with
  | [] => 0
  | o :: h' =>
      length (filter (λ snd, confirms candidate (payload snd) = true)
                (sends (dispatch o (after cs h')))) +
      confirmed cs h' candidate
  end.

(** The two message shapes of the protocol. *)
Definition knownShape (j : JSON) : Prop :=
  prop j "type" = Some (JStr "request_tally") ∨
  (prop j "type" = Some (JStr "vote") ∧
   ∃ c, prop j "candidate" = Some (JStr c)).

(** An occurrence that is neither a disconnect nor a vote message. *)
Definition quiet (o : Occurrence) : bool :=
  match event o with
  | close _ => false
  | message _ _ (Some j) => negb (strictEquals (prop j "type") "vote")
  | _ => true
  end.

(** What holds after every possible history. *)
Record invariant (cs : list string) (h : History) : Prop := {
  inv_clients_issued :
    ∀ clientId, clientId ∈ (clients (after cs h)).*1 →
                clientId ∈ issuedIds h;
  inv_attributed_issued :
    ∀ clientId, clientId ∈ attributed cs h → clientId ∈ issuedIds h;
  inv_attributed_once : NoDup (attributed cs h);
  inv_voted :
    ∀ clientId,
      clientId ∈ votedClients (after cs h) ↔
      clientId ∈ (clients (after cs h)).*1 ∧ clientId ∈ attributed cs h;
  inv_tally :
    tallySum (votes (after cs h)) = Some (length (attributed cs h));
  inv_votes :
    ∀ c, c ∈ cs → ∃ n, Map_get c (votes (after cs h)) = Some (Count n)
}.

(** The connections made and not closed since, the latest first, each with
    its socket. *)
Fixpoint connected (h : History) : list (string * nat) :=
  match h with
  | [] => []
  | o :: h' =>
      match event o with
      | connection clientId ws => (clientId, ws) :: connected h'
      | close clientId =>
          filter (λ entry : string * nat, entry.1 ≠ clientId) (connected h')
      | _ => connected h'
      end
  end.

(** * Properties *)

(** ** The ordered map *)

Section JsMapFacts.
Context {V : Type}.
Implicit Types (m : list (string * V)) (k : string) (v : V).

Lemma Map_get_is_Some k m : is_Some (Map_get k m) ↔ k ∈ m.*1.
Proof.
  induction m as [|[k' v'] m IH]; simpl.
  - split; [intros [? ?]; discriminate | intros H; inversion H].
  - case_decide; subst.
    + split; [intros _; left | eauto].
    + rewrite IH. split; [by right | intros H'; by inversion H'; subst].
Qed.

Lemma Map_get_None k m : Map_get k m = None ↔ k ∉ m.*1.
Proof. rewrite <- Map_get_is_Some, eq_None_not_Some. tauto. Qed.

Lemma Map_get_set k k' v m :
  Map_get k' (Map_set k v m) = if decide (k' = k) then Some v else Map_get k' m.
Proof.
  induction m as [|[k0 v0] m IH]; simpl.
  - repeat case_decide; congruence.
  - repeat (case_decide; simpl; subst); congruence.
Qed.

Lemma Map_set_keys_present k v m : k ∈ m.*1 → (Map_set k v m).*1 = m.*1.
Proof.
  induction m as [|[k0 v0] m IH]; simpl; intros Hin.
  - inversion Hin.
  - case_decide; simpl; subst; [done|].
    f_equal. apply IH. by inversion Hin; subst.
Qed.

Lemma Map_set_keys_absent k v m : k ∉ m.*1 → (Map_set k v m).*1 = (m.*1) ++ [k].
Proof.
  induction m as [|[k0 v0] m IH]; simpl; intros Hin; [done|].
  apply not_elem_of_cons in Hin as [Hne Hin].
  case_decide; [done|]. simpl. f_equal. by apply IH.
Qed.

Lemma Map_set_keys_elem k k' v m :
  k' ∈ (Map_set k v m).*1 ↔ k' = k ∨ k' ∈ m.*1.
Proof.
  rewrite <- !Map_get_is_Some, Map_get_set.
  case_decide; subst; [split; eauto | split; [eauto | intros [?|?]; done]].
Qed.

Lemma Map_get_delete k k' m :
  Map_get k' (Map_delete k m) = if decide (k' = k) then None else Map_get k' m.
Proof.
  induction m as [|[k0 v0] m IH]; simpl.
  - by case_decide.
  - repeat (case_decide; simpl; subst); congruence.
Qed.

Lemma Map_delete_keys_elem k k' m :
  k' ∈ (Map_delete k m).*1 ↔ k' ≠ k ∧ k' ∈ m.*1.
Proof.
  rewrite <- !Map_get_is_Some, Map_get_delete.
  case_decide; subst; [|tauto].
  split; [intros [? ?]; discriminate | tauto].
Qed.
End JsMapFacts.

(** ** The handlers, one run at a time *)

Ltac run :=
  repeat (unfold mbind, M_bind, mret, M_ret, throw, get_this, update, emit,
            try_catch, sendToClient, template, JSON_parse;
          cbn [completion server sends app clients votes votedClients
               candidates with_clients with_votes with_votedClients]).

Section HandlerFacts.
Variable rs : Env.
Implicit Types (s : VoteServer) (clientId : string) (ws : nat).

Lemma strictEquals_true v literal :
  strictEquals v literal = true ↔ v = Some (JStr literal).
Proof.
  destruct v as [[]|]; simpl; try (split; [discriminate | congruence]).
  rewrite bool_decide_eq_true. split; congruence.
Qed.

Lemma bind_run {A B} (m : M A) (f : A → M B) s :
  (m ≫= f) s =
  match completion (m s) with
  | Normal a =>
      mkResult (completion (f a (server (m s)))) (server (f a (server (m s))))
        (sends (m s) ++ sends (f a (server (m s))))
  | Throw e => mkResult (Throw e) (server (m s)) (sends (m s))
  end.
Proof. reflexivity. Qed.

Lemma sendToClient_socket ws msg s :
  sendToClient rs (Some ws) msg s =
  mkResult (Normal (bool_decide (readyState rs ws = OPEN))) s [sent rs ws msg].
Proof. reflexivity. Qed.

Lemma getProp_defined msg name :
  msg ≠ JNull → getProp msg name = mret (prop msg name).
Proof. by destruct msg. Qed.

Lemma broadcast_loop msg (l : list (string * nat)) s :
  foldr (λ entry rest, sendToClient rs (Some entry.2) msg;; rest)
    (mret tt) l s
  = mkResult (Normal tt) s (map (λ entry, sent rs entry.2 msg) l).
Proof.
  induction l as [|entry l IH]; [done|].
  cbn [foldr]. rewrite bind_run, sendToClient_socket. cbn [completion server sends].
  by rewrite IH.
Qed.

Lemma broadcastTally_run s :
  broadcastTally rs s = mkResult (Normal tt) s (fanout rs s).
Proof.
  unfold broadcastTally. rewrite bind_run. unfold get_this.
  cbn [completion server sends]. by rewrite broadcast_loop.
Qed.

Lemma sendTallyToClient_run clientId s :
  sendTallyToClient rs clientId s =
  mkResult (Normal tt) s
    match Map_get clientId (clients s) with
    | Some ws =>
        [sent rs ws (tally_update (getTally s) (size (votedClients s)))]
    | None => []
    end.
Proof. unfold sendTallyToClient. run. by destruct (Map_get _ _). Qed.

Lemma handleVote_run clientId msg s :
  msg ≠ JNull →
  handleVote rs clientId msg s =
  if decide (clientId ∈ votedClients s) then
    match Map_get clientId (clients s) with
    | Some ws =>
        mkResult (Normal tt) s [sent rs ws (error "You have already voted!")]
    | None => mkResult (Throw TypeError) s []
    end
  else
    match includes (candidates s) (prop msg "candidate") with
    | None =>
        match Map_get clientId (clients s) with
        | Some ws =>
            mkResult (Normal tt) s
              [sent rs ws (error "Invalid candidate selected!")]
        | None => mkResult (Throw TypeError) s []
        end
    | Some c =>
        let s' := recorded clientId c s in
        match Map_get clientId (clients s) with
        | Some ws =>
            mkResult (Normal tt) s'
              (sent rs ws (vote_confirmed c) :: fanout rs s')
        | None => mkResult (Throw TypeError) s' []
        end
    end.
Proof.
  intros Hnull. unfold handleVote, recorded.
  rewrite (getProp_defined _ _ Hnull). run.
  case_decide.
  - by destruct (Map_get clientId (clients s)).
  - destruct (includes _ _) as [c|]; run.
    + destruct (Map_get clientId (clients s)); run; [|done].
      by rewrite broadcastTally_run.
    + by destruct (Map_get clientId (clients s)).
Qed.

Lemma mret_bind {A B} (a : A) (f : A → M B) s : (mret a ≫= f) s = f a s.
Proof. rewrite bind_run. simpl. by destruct (f a s). Qed.

Lemma onMessage_parsed clientId ws j s :
  onMessage rs clientId ws (Some j) s =
  try_catch (handleMessage rs clientId j)
    (λ _, sendToClient rs (Some ws) (error "Invalid message format");;
          mret tt) s.
Proof.
  unfold onMessage, try_catch. cbn [JSON_parse]. by rewrite mret_bind.
Qed.

Lemma conversionFailure_raises (v : option JSON) :
  conversionRaises rs v =
  match v ≫= conversionFailure rs with Some _ => true | None => false end.
Proof.
  destruct v as [j|]; [|done]. simpl. unfold conversionFailure.
  destruct (toStringThrows j); [done|]. simpl.
  by destruct (isArray j && stackOverflows rs j).
Qed.

Lemma handleMessage_run clientId j s :
  j ≠ JNull →
  handleMessage rs clientId j s =
  match prop j "type" ≫= conversionFailure rs with
  | Some e => mkResult (Throw e) s []
  | None =>
      if strictEquals (prop j "type") "vote"
      then handleVote rs clientId j s
      else if strictEquals (prop j "type") "request_tally"
      then sendTallyToClient rs clientId s
      else
        match Map_get clientId (clients s) with
        | Some ws' =>
            mkResult (Normal tt) s
              [sent rs ws' (error "Unknown message type")]
        | None => mkResult (Throw TypeError) s []
        end
  end.
Proof.
  intros Hnull. unfold handleMessage.
  rewrite (getProp_defined _ _ Hnull), mret_bind.
  rewrite bind_run. unfold template.
  destruct (prop j "type") as [ty|]; cbn [mbind option_bind].
  - destruct (conversionFailure rs ty); [done|].
    cbn [mret M_ret completion server sends app].
    destruct (strictEquals (Some ty) "vote");
      [by destruct (handleVote rs clientId j s)|].
    destruct (strictEquals (Some ty) "request_tally");
      [by destruct (sendTallyToClient rs clientId s)|].
    run. by destruct (Map_get clientId (clients s)).
  - cbn [strictEquals]. run. by destruct (Map_get clientId (clients s)).
Qed.

(** A message whose [type] is ['vote'] reaches [handleVote]; an exception
    raised there is answered from the [catch] block. *)
Lemma onMessage_vote clientId ws j s :
  prop j "type" = Some (JStr "vote") →
  onMessage rs clientId ws (Some j) s =
  let r := handleVote rs clientId j s in
  match completion r with
  | Normal _ => r
  | Throw _ =>
      mkResult (Normal tt) (server r)
        (sends r ++ [sent rs ws (error "Invalid message format")])
  end.
Proof.
  intros Hty. assert (j ≠ JNull) as Hnull by (by intros ->).
  rewrite onMessage_parsed. unfold try_catch.
  rewrite (handleMessage_run _ _ _ Hnull), Hty.
  change (Some (JStr "vote") ≫= conversionFailure rs) with (@None JsError).
  change (strictEquals (Some (JStr "vote")) "vote") with true.
  cbv beta iota zeta.
  by destruct (completion (handleVote rs clientId j s)).
Qed.

Lemma onMessage_request_tally clientId ws j s :
  prop j "type" = Some (JStr "request_tally") →
  onMessage rs clientId ws (Some j) s =
  mkResult (Normal tt) s
    match Map_get clientId (clients s) with
    | Some ws' =>
        [sent rs ws' (tally_update (getTally s) (size (votedClients s)))]
    | None => []
    end.
Proof.
  intros Hty. assert (j ≠ JNull) as Hnull by (by intros ->).
  rewrite onMessage_parsed. unfold try_catch.
  rewrite (handleMessage_run _ _ _ Hnull), Hty.
  change (Some (JStr "request_tally") ≫= conversionFailure rs)
    with (@None JsError).
  change (strictEquals (Some (JStr "request_tally")) "vote") with false.
  change (strictEquals (Some (JStr "request_tally")) "request_tally")
    with true.
  cbv beta iota. by rewrite sendTallyToClient_run.
Qed.

(** Any other frame is answered with an error and changes nothing. *)
Lemma onMessage_other clientId ws data s :
  (∀ j, data = Some j →
        strictEquals (prop j "type") "vote" = false ∧
        strictEquals (prop j "type") "request_tally" = false) →
  onMessage rs clientId ws data s =
  mkResult (Normal tt) s
    match data with
    | Some j =>
        if isNull j || conversionRaises rs (prop j "type")
        then [sent rs ws (error "Invalid message format")]
        else
          match Map_get clientId (clients s) with
          | Some ws' => [sent rs ws' (error "Unknown message type")]
          | None => [sent rs ws (error "Invalid message format")]
          end
    | None => [sent rs ws (error "Invalid message format")]
    end.
Proof.
  intros Hother. destruct data as [j|]; [|done].
  rewrite onMessage_parsed. unfold try_catch.
  destruct (Hother j eq_refl) as [Hv Hr].
  destruct (isNull j) eqn:Hj; [by destruct j|].
  assert (j ≠ JNull) as Hnull by (by intros ->).
  rewrite (handleMessage_run _ _ _ Hnull), Hv, Hr. cbn [orb].
  pose proof (conversionFailure_raises (prop j "type")) as Hconv.
  destruct (prop j "type" ≫= conversionFailure rs); rewrite Hconv; [done|].
  by destruct (Map_get clientId (clients s)).
Qed.
End HandlerFacts.

(** ** The effect of one event on the server object *)

Section EventFacts.
Variable rs : Env.
Implicit Types (s : VoteServer) (clientId : string) (ws : nat).

Lemma onMessage_server clientId ws data s :
  server (onMessage rs clientId ws data s) =
  match accepts s clientId data with
  | Some c => recorded clientId c s
  | None => s
  end.
Proof.
  unfold accepts. destruct data as [j|]; [|by rewrite onMessage_other].
  destruct (strictEquals (prop j "type") "vote") eqn:Hv.
  - apply strictEquals_true in Hv.
    assert (j ≠ JNull) as Hnull by (by intros ->).
    rewrite onMessage_vote, handleVote_run by done. cbv zeta.
    case_decide; [by destruct (Map_get clientId (clients s))|].
    destruct (includes _ _); by destruct (Map_get clientId (clients s)).
  - destruct (strictEquals (prop j "type") "request_tally") eqn:Hr.
    + apply strictEquals_true in Hr. by rewrite onMessage_request_tally.
    + rewrite onMessage_other; [done|]. by intros ? [= <-].
Qed.

(** A tally_update carries the tally and the size of [votedClients] of
    the server object the handler leaves. *)
Lemma onMessage_tally_update clientId ws data s snd t n :
  snd ∈ sends (onMessage rs clientId ws data s) →
  payload snd = tally_update t n →
  let s' := server (onMessage rs clientId ws data s) in
  t = getTally s' ∧ n = size (votedClients s').
Proof.
  assert (∀ s0, snd ∈ fanout rs s0 → payload snd = tally_update t n →
            t = getTally s0 ∧ n = size (votedClients s0)) as Hfan.
  { intros s0 (e & -> & _)%list_elem_of_fmap; simpl. by intros [= -> ->]. }
  destruct data as [j|]; [|rewrite onMessage_other by done; simpl;
    by intros ->%list_elem_of_singleton].
  destruct (strictEquals (prop j "type") "vote") eqn:Hv.
  - apply strictEquals_true in Hv.
    assert (j ≠ JNull) as Hnull by (by intros ->).
    rewrite onMessage_vote, handleVote_run by done. cbv zeta.
    case_decide.
    { destruct (Map_get clientId (clients s)); simpl;
        by intros ->%list_elem_of_singleton. }
    destruct (includes _ _) as [c|].
    + destruct (Map_get clientId (clients s)); simpl.
      * intros [->|?]%elem_of_cons ?; [done|].
        by apply (Hfan (recorded clientId c s)).
      * by intros ->%list_elem_of_singleton.
    + destruct (Map_get clientId (clients s)); simpl;
        by intros ->%list_elem_of_singleton.
  - destruct (strictEquals (prop j "type") "request_tally") eqn:Hr.
    + apply strictEquals_true in Hr. rewrite onMessage_request_tally by done.
      simpl. destruct (Map_get clientId (clients s)); simpl.
      * intros ->%list_elem_of_singleton. by intros [= -> ->].
      * by intros ?%elem_of_nil.
    + rewrite onMessage_other by (by intros ? [= <-]). simpl.
      repeat match goal with
             | |- context [if ?b then _ else _] => destruct b
             | |- context [match ?b with Some _ => _ | None => _ end] =>
                 destruct b
             end; by intros ->%list_elem_of_singleton.
Qed.

Lemma onConnection_run clientId ws s :
  onConnection rs clientId ws s =
  let s' := with_clients (Map_set clientId ws) s in
  mkResult (Normal tt) s'
    [sent rs ws (welcome clientId (candidates s) (getTally s))].
Proof. reflexivity. Qed.

Lemma onClose_run clientId s :
  onClose clientId s =
  mkResult (Normal tt)
    (with_votedClients (λ vc, vc ∖ {[clientId]})
       (with_clients (Map_delete clientId) s)) [].
Proof. reflexivity. Qed.
End EventFacts.

(** ** Start-up *)

Section Startup.
Implicit Types (cs : list string) (m : list (string * JsNum)).

Lemma initializeCandidates_run (s : VoteServer) :
  initializeCandidates s =
  mkResult (Normal tt) (with_votes (zeroed (candidates s)) s) [].
Proof. reflexivity. Qed.

Lemma zeroed_get cs m c :
  Map_get c (zeroed cs m) =
  if decide (c ∈ cs) then Some (Count 0) else Map_get c m.
Proof.
  revert m. induction cs as [|c0 cs IH]; intros m; simpl.
  - done.
  - rewrite IH, Map_get_set.
    destruct (decide (c ∈ c0 :: cs)) as [Hin|Hnin].
    + apply elem_of_cons in Hin as [->|Hin]; [|by rewrite decide_True].
      destruct (decide (c0 ∈ cs)); [done|]. by rewrite decide_True.
    + apply not_elem_of_cons in Hnin as [Hne Hnin].
      by rewrite !decide_False.
Qed.

Lemma zeroed_keys cs m :
  NoDup cs → (∀ c, c ∈ cs → c ∉ m.*1) → (zeroed cs m).*1 = (m.*1) ++ cs.
Proof.
  revert m. induction cs as [|c0 cs IH]; intros m Hnd Hfresh; simpl.
  - by rewrite app_nil_r.
  - apply NoDup_cons in Hnd as [Hc0 Hnd].
    rewrite IH, Map_set_keys_absent; [by rewrite <- app_assoc| |done|].
    + apply Hfresh. by left.
    + intros c Hc. rewrite Map_set_keys_elem. intros [->|Hin]; [done|].
      by apply (Hfresh c); [right|].
Qed.

Lemma tallySum_zero m : Forall (λ e, e.2 = Count 0) m → tallySum m = Some 0.
Proof.
  induction 1 as [|[c v] m Hv _ IH]; [done|].
  simpl in *. subst. by rewrite IH.
Qed.

Lemma Map_set_zero c m :
  Forall (λ e : string * JsNum, e.2 = Count 0) m →
  Forall (λ e : string * JsNum, e.2 = Count 0) (Map_set c (Count 0) m).
Proof.
  induction 1 as [|[c' v] m Hv Hm IH]; simpl.
  - by repeat constructor.
  - case_decide; by constructor.
Qed.

Lemma zeroed_zero cs m :
  Forall (λ e : string * JsNum, e.2 = Count 0) m →
  Forall (λ e : string * JsNum, e.2 = Count 0) (zeroed cs m).
Proof.
  revert m. induction cs as [|c0 cs IH]; intros m Hm; [done|].
  simpl. apply IH. by apply Map_set_zero.
Qed.

Lemma tallySum_increment c n m t :
  Map_get c m = Some (Count n) → tallySum m = Some t →
  tallySum (Map_set c (Count (S n)) m) = Some (S t).
Proof.
  revert t. induction m as [|[c' v] m IH]; intros t; simpl; [done|].
  case_decide; subst.
  - intros [= ->]. simpl.
    destruct (tallySum m); simpl; [|done]. by intros [= <-].
  - intros Hget. simpl. destruct v as [k|]; [|done].
    destruct (tallySum m) as [t'|]; simpl; [|done].
    intros [= <-]. rewrite (IH t') by done. simpl. f_equal. lia.
Qed.
End Startup.

(** ** Histories *)

Lemma includes_Some cs v c :
  includes cs v = Some c → v = Some (JStr c) ∧ c ∈ cs.
Proof.
  destruct v as [[]|]; simpl; try done.
  case_decide; [|done]. by intros [= ->].
Qed.

Lemma accepts_Some s clientId data c :
  accepts s clientId data = Some c →
  (clientId ∉ votedClients s) ∧ (c ∈ candidates s) ∧
  ∃ j, data = Some j ∧ prop j "type" = Some (JStr "vote") ∧
       prop j "candidate" = Some (JStr c).
Proof.
  unfold accepts. destruct data as [j|]; [|done].
  destruct (strictEquals _ _) eqn:Hv; [|done].
  apply strictEquals_true in Hv. case_decide; [done|].
  intros [? ?]%includes_Some. eauto 10.
Qed.

Lemma tallySum_counts m t c v :
  tallySum m = Some t → Map_get c m = Some v → ∃ n, v = Count n.
Proof.
  revert t. induction m as [|[c' v'] m IH]; intros t; simpl; [done|].
  destruct v' as [k|]; [|done].
  destruct (tallySum m) as [t'|]; [|done]. intros _.
  case_decide; [intros [= <-]; eauto | eauto].
Qed.

Lemma dispatch_candidates o s :
  candidates (server (dispatch o s)) = candidates s.
Proof.
  unfold dispatch. destruct (event o) as [id ws|id ws data|id|id]; try done.
  rewrite onMessage_server. by destruct (accepts s id data).
Qed.

Lemma dispatch_votes o s :
  votes (server (dispatch o s)) =
  match event o with
  | message clientId _ data =>
      match accepts s clientId data with
      | Some c => Map_set c (plus_one (Map_get c (votes s))) (votes s)
      | None => votes s
      end
  | _ => votes s
  end.
Proof.
  unfold dispatch. destruct (event o) as [id ws|id ws data|id|id]; try done.
  rewrite onMessage_server. by destruct (accepts s id data).
Qed.

Lemma marksVoted_accepts s o :
  marksVoted s o =
  match event o with
  | message clientId _ data =>
      match accepts s clientId data with
      | Some _ => [clientId]
      | None => []
      end
  | _ => []
  end.
Proof.
  unfold marksVoted, dispatch.
  destruct (event o) as [id ws|id ws data|id|id]; try done.
  rewrite onMessage_server.
  destruct (accepts s id data) as [c|] eqn:Hacc.
  - apply accepts_Some in Hacc as [Hnv _].
    rewrite decide_True; [done|]. split; [done|]. simpl. set_solver.
  - rewrite decide_False; [done|]. tauto.
Qed.

Section RunFacts.
Variable cs : list string.
Implicit Types (h : History) (clientId : string).

Lemma after_candidates h : candidates (after cs h) = cs.
Proof.
  induction h as [|o h IH]; [done|].
  simpl. by rewrite dispatch_candidates.
Qed.

Lemma invariant_start : invariant cs [].
Proof.
  split; simpl; try done.
  - apply NoDup_nil_2.
  - intros id. split; [by intros ?%not_elem_of_empty|].
    by intros [?%elem_of_nil _].
  - apply (tallySum_zero (zeroed cs [])), zeroed_zero. constructor.
  - intros c Hc. exists 0.
    pose proof (zeroed_get cs [] c) as Hz.
    by rewrite decide_True in Hz.
Qed.

Lemma invariant_step o h :
  invariant cs h → enabled cs h (event o) = true → invariant cs (o :: h).
Proof.
  intros [Hci Hai Hnd Hv Ht Hvs] Hen. destruct o as [rs e].
  pose proof (marksVoted_accepts (after cs h) (at_ rs e)) as Hmark.
  pose proof (dispatch_votes (at_ rs e) (after cs h)) as Hvotes.
  destruct e as [id ws|id ws data|id|id]; simpl in Hen, Hmark, Hvotes.
  - (* connection *)
    apply bool_decide_eq_true in Hen as [Hfresh _].
    split; cbn [after attributed issuedIds event]; rewrite ?Hmark, ?Hvotes;
      cbn [app]; try done.
    + intros id'. unfold dispatch; simpl.
      rewrite Map_set_keys_elem, elem_of_cons. naive_solver.
    + intros id' ?. right. by apply Hai.
    + intros id'. unfold dispatch; simpl.
      rewrite Map_set_keys_elem, Hv. naive_solver.
  - (* message *)
    apply bool_decide_eq_true in Hen.
    assert (id ∈ (clients (after cs h)).*1) as Hreg
      by (apply Map_get_is_Some; eauto).
    assert (server (dispatch (at_ rs (message id ws data)) (after cs h)) =
            match accepts (after cs h) id data with
            | Some c => recorded id c (after cs h)
            | None => after cs h
            end) as Hsrv by apply onMessage_server.
    split; cbn [after attributed issuedIds event];
      rewrite ?Hmark, ?Hvotes, ?Hsrv;
      destruct (accepts (after cs h) id data) as [c|] eqn:Hacc;
      cbn [app]; try done;
      apply accepts_Some in Hacc as (Hnv & Hc & _).
    + intros id' [->|?]%elem_of_cons; eauto.
    + apply NoDup_cons. split; [|done]. intros Hin. apply Hnv, Hv. eauto.
    + intros id'. simpl. rewrite elem_of_union, elem_of_singleton, Hv.
      rewrite elem_of_cons. naive_solver.
    + rewrite after_candidates in Hc. destruct (Hvs c Hc) as [n Hn].
      rewrite Hn. simpl. by apply tallySum_increment.
    + rewrite after_candidates in Hc. destruct (Hvs c Hc) as [n Hn].
      intros c' Hc'. rewrite Map_get_set, Hn. case_decide; eauto.
  - (* close *)
    split; cbn [after attributed issuedIds event]; rewrite ?Hmark, ?Hvotes;
      cbn [app]; try done.
    + intros id'. unfold dispatch; simpl.
      rewrite Map_delete_keys_elem. naive_solver.
    + intros id'. unfold dispatch; simpl.
      rewrite Map_delete_keys_elem, elem_of_difference, elem_of_singleton, Hv.
      naive_solver.
  - (* error *)
    split; cbn [after attributed issuedIds event]; rewrite ?Hmark, ?Hvotes;
      cbn [app]; done.
Qed.

Lemma possible_invariant h : possible cs h = true → invariant cs h.
Proof.
  induction h as [|o h IH]; [intros _; apply invariant_start|].
  simpl. intros [Hh Ho]%andb_true_iff. by apply invariant_step; [apply IH|].
Qed.
End RunFacts.

(** * Specification properties *)

(** ** Rejected votes *)

(** C3. A vote of a registered session that is rejected changes nothing:
    when the session has already voted the handler sends the error
    'You have already voted!' to that session's socket and nothing else, and
    when the session has not voted and the candidate is a string outside the
    candidate list it sends 'Invalid candidate selected!' to that socket and
    nothing else.  In both cases the handler ends normally, the server
    object (counts, voted set, registry) is the one before, and no
    tally_update is sent to anyone. *)
Theorem C3_rejected_vote_has_no_effect
    (rs : Env) (s : VoteServer) (clientId : string) (ws : nat)
    (j : JSON) :
  Map_get clientId (clients s) = Some ws →
  prop j "type" = Some (JStr "vote") →
  (clientId ∈ votedClients s →
   onMessage rs clientId ws (Some j) s =
   mkResult (Normal tt) s [sent rs ws (error "You have already voted!")]) ∧
  (∀ c, clientId ∉ votedClients s →
        prop j "candidate" = Some (JStr c) → c ∉ candidates s →
        onMessage rs clientId ws (Some j) s =
        mkResult (Normal tt) s
          [sent rs ws (error "Invalid candidate selected!")]).
Proof.
  intros Hreg Hty. assert (j ≠ JNull) as Hnull by (by intros ->).
  split.
  - intros Hvoted.
    rewrite onMessage_vote, handleVote_run by done. cbv zeta.
    by rewrite decide_True, Hreg.
  - intros c Hnot Hcand Hc.
    rewrite onMessage_vote, handleVote_run by done. cbv zeta.
    rewrite decide_False, Hcand, Hreg by done. simpl.
    by rewrite decide_False.
Qed.

Lemma C3_rejected_vote_has_no_effect_witness :
  onMessage allOpen "c1" 1 (vote_for "Candidate A")
    (after defaultCandidates secondConnected) =
    mkResult (Normal tt) (after defaultCandidates secondConnected)
      [sent allOpen 1 (error "You have already voted!")] ∧
  onMessage allOpen "c2" 2 (vote_for "Candidate Z")
    (after defaultCandidates secondConnected) =
    mkResult (Normal tt) (after defaultCandidates secondConnected)
      [sent allOpen 2 (error "Invalid candidate selected!")].
Proof.
  split.
  - refine (proj1 (C3_rejected_vote_has_no_effect allOpen _ "c1" 1
                     (JObj [("type", JStr "vote");
                            ("candidate", JStr "Candidate A")]) _ _) _).
    + reflexivity.
    + reflexivity.
    + apply (bool_decide_unpack _). by vm_compute.
  - refine (proj2 (C3_rejected_vote_has_no_effect allOpen _ "c2" 2
                     (JObj [("type", JStr "vote");
                            ("candidate", JStr "Candidate Z")]) _ _)
                  "Candidate Z" _ _ _).
    + reflexivity.
    + reflexivity.
    + apply (bool_decide_unpack _). by vm_compute.
    + reflexivity.
    + apply (bool_decide_unpack _). by vm_compute.
Defined.

(** ** A vote without a usable candidate *)

(** C5, as the code has it.  A vote of a registered session whose
    [candidate] field is absent or is not a string is answered like the
    other rejected votes: with 'You have already voted!' when the session
    has voted, and with 'Invalid candidate selected!' when it has not.  The
    reply goes to the sender's socket only and the server object does not
    change. *)
Theorem C5_vote_without_string_candidate
    (rs : Env) (s : VoteServer) (clientId : string) (ws : nat)
    (j : JSON) :
  Map_get clientId (clients s) = Some ws →
  prop j "type" = Some (JStr "vote") →
  (∀ c, prop j "candidate" ≠ Some (JStr c)) →
  onMessage rs clientId ws (Some j) s =
  mkResult (Normal tt) s
    [sent rs ws (error (if decide (clientId ∈ votedClients s)
                        then "You have already voted!"
                        else "Invalid candidate selected!"))].
Proof.
  intros Hreg Hty Hcand. assert (j ≠ JNull) as Hnull by (by intros ->).
  rewrite onMessage_vote, handleVote_run by done. cbv zeta.
  case_decide; rewrite Hreg; [done|].
  destruct (includes _ _) as [c|] eqn:Hinc; [|done].
  apply includes_Some in Hinc as [Hc _]. by destruct (Hcand c).
Qed.

Lemma C5_vote_without_string_candidate_witness :
  onMessage allOpen "c2" 2 (Some (JObj [("type", JStr "vote")]))
    (after defaultCandidates secondConnected) =
  mkResult (Normal tt) (after defaultCandidates secondConnected)
    [sent allOpen 2 (error "Invalid candidate selected!")].
Proof.
  refine (C5_vote_without_string_candidate allOpen _ "c2" 2
            (JObj [("type", JStr "vote")]) _ _ _).
  - reflexivity.
  - reflexivity.
  - intros c. simpl. discriminate.
Defined.

(** C5 as stated fails: a vote with no [candidate] field, and one whose
    [candidate] is a number, get the very reply of a vote for an unknown
    candidate name, and from a session that has voted the reply of a second
    vote. *)
Lemma C5_missing_candidate_is_not_a_class_of_its_own :
  let s := after defaultCandidates secondConnected in
  let reply data := map payload (sends (onMessage allOpen "c2" 2 data s)) in
  reply (Some (JObj [("type", JStr "vote")])) =
    reply (vote_for "Candidate Z") ∧
  reply (Some (JObj [("type", JStr "vote"); ("candidate", JNum "7")])) =
    [error "Invalid candidate selected!"] ∧
  reply (vote_for "Candidate Z") = [error "Invalid candidate selected!"] ∧
  map payload
    (sends (onMessage allOpen "c1" 1 (Some (JObj [("type", JStr "vote")])) s))
  = [error "You have already voted!"].
Proof. vm_compute. done. Qed.

(** ** Undecodable frames *)

(** C7. A frame that is not JSON text, or whose JSON value has neither of
    the two message shapes, never makes the message handler raise and never
    changes the server object: the handler ends normally after one reply,
    an error message, sent to the socket of the connection the frame came
    from.  (The registry maps the connection's identifier to that socket, or
    to nothing when the connection is no longer registered.) *)
Theorem C7_undecodable_frame
    (rs : Env) (s : VoteServer) (clientId : string) (ws : nat)
    (data : option JSON) :
  (∀ ws', Map_get clientId (clients s) = Some ws' → ws' = ws) →
  (∀ j, data = Some j → ¬ knownShape j) →
  ∃ text, onMessage rs clientId ws data s =
          mkResult (Normal tt) s [sent rs ws (error text)].
Proof.
  intros Hws Hshape. destruct data as [j|]; [|by eexists].
  specialize (Hshape j eq_refl).
  destruct (strictEquals (prop j "type") "vote") eqn:Hv.
  - apply strictEquals_true in Hv.
    assert (j ≠ JNull) as Hnull by (by intros ->).
    rewrite onMessage_vote, handleVote_run by done. cbv zeta.
    assert (includes (candidates s) (prop j "candidate") = None) as ->.
    { destruct (includes _ _) as [c|] eqn:Hinc; [|done].
      apply includes_Some in Hinc as [Hc _].
      destruct Hshape. right. eauto. }
    destruct (Map_get clientId (clients s)) as [ws'|] eqn:Hreg.
    + rewrite (Hws ws' eq_refl). case_decide; by eexists.
    + case_decide; by eexists.
  - destruct (strictEquals (prop j "type") "request_tally") eqn:Hr.
    { apply strictEquals_true in Hr. destruct Hshape. by left. }
    rewrite onMessage_other by (by intros ? [= <-]).
    destruct (_ || _); [by eexists|].
    destruct (Map_get clientId (clients s)) as [ws'|] eqn:Hreg.
    + rewrite (Hws ws' eq_refl). by eexists.
    + by eexists.
Qed.

Lemma C7_undecodable_frame_witness :
  ∃ text,
    onMessage allOpen "c2" 2 (Some (JObj [("type", JNull)]))
      (after defaultCandidates secondConnected) =
    mkResult (Normal tt) (after defaultCandidates secondConnected)
      [sent allOpen 2 (error text)].
Proof.
  refine (C7_undecodable_frame allOpen _ "c2" 2
            (Some (JObj [("type", JNull)])) _ _).
  - vm_compute. by intros ws' [= <-].
  - intros j [= <-] [H|[H _]]; discriminate H.
Defined.

(** ** Asking for the tally *)

(** C10. For an identifier that the registry does not hold,
    [sendTallyToClient] calls [sendToClient] for nobody, ends normally and
    leaves the server object as it was; so does the whole message handler
    on a request_tally message of such a connection. *)
Theorem C10_request_tally_of_unregistered_session
    (rs : Env) (s : VoteServer) (clientId : string) :
  Map_get clientId (clients s) = None →
  sendTallyToClient rs clientId s = mkResult (Normal tt) s [] ∧
  ∀ ws j, prop j "type" = Some (JStr "request_tally") →
          onMessage rs clientId ws (Some j) s = mkResult (Normal tt) s [].
Proof.
  intros Hreg. split.
  - by rewrite sendTallyToClient_run, Hreg.
  - intros ws j Hty. by rewrite onMessage_request_tally, Hreg.
Qed.

Lemma C10_request_tally_of_unregistered_session_witness :
  sendTallyToClient allOpen "c1" (after defaultCandidates firstLeft) =
  mkResult (Normal tt) (after defaultCandidates firstLeft) [].
Proof.
  refine (proj1 (C10_request_tally_of_unregistered_session allOpen _ "c1" _)).
  reflexivity.
Defined.

(** ** The voted set and the tally *)

(** C1, where the code departs from it.  The first client votes for
    Candidate B and the broadcast that follows reports totalVotes 1.  A
    second client connects, the first one disconnects, and the second one
    asks for the tally.  One vote has been counted for the first client and
    the tally still shows it, but that client is no longer in the voted
    set, and the tally_update the second client is sent carries totalVotes
    0 beside a tally whose counts add up to 1. *)
Theorem C1_totalVotes_forgets_disconnected_voter :
  possible defaultCandidates secondAsked = true ∧
  votesCounted defaultCandidates secondAsked "c1" = 1 ∧
  ("c1" ∉ votedClients (after defaultCandidates secondAsked)) ∧
  lastSends defaultCandidates firstVoted =
    [ mkSend 1 (vote_confirmed "Candidate B") true;
      mkSend 1
        (tally_update
           [("Candidate A", Count 0); ("Candidate B", Count 1);
            ("Candidate C", Count 0)] 1)
        true ] ∧
  lastSends defaultCandidates secondAsked =
    [ mkSend 2
        (tally_update
           [("Candidate A", Count 0); ("Candidate B", Count 1);
            ("Candidate C", Count 0)] 0)
        true ] ∧
  tallySum (getTally (after defaultCandidates secondAsked)) = Some 1.
Proof.
  split; [by vm_compute|]. split; [by vm_compute|].
  split; [|by vm_compute].
  apply (bool_decide_unpack _). by vm_compute.
Qed.

(** C2. After every possible history the counts of the tally add up to the
    number of sessions to which a vote was attributed, each of them counted
    once.  A disconnect changes no count and takes no vote back, so a
    request_tally answered afterwards carries a tally that still counts the
    votes of the sessions that have left. *)
Theorem C2_tally_counts_every_accepted_vote (cs : list string) (h : History) :
  possible cs h = true →
  tallySum (getTally (after cs h)) = Some (length (attributed cs h)) ∧
  NoDup (attributed cs h) ∧
  (∀ rs clientId,
     votes (after cs (at_ rs (close clientId) :: h)) = votes (after cs h) ∧
     attributed cs (at_ rs (close clientId) :: h) = attributed cs h) ∧
  (∀ rs clientId ws j,
     Map_get clientId (clients (after cs h)) = Some ws →
     prop j "type" = Some (JStr "request_tally") →
     ∃ t n,
       lastSends cs (at_ rs (message clientId ws (Some j)) :: h) =
         [sent rs ws (tally_update t n)] ∧
       tallySum t = Some (length (attributed cs h))).
Proof.
  intros Hpos. destruct (possible_invariant cs h Hpos) as [_ _ Hnd _ Ht _].
  repeat split; try done.
  intros rs id ws j Hreg Hty. do 2 eexists.
  cbn [lastSends dispatch event environment].
  rewrite onMessage_request_tally, Hreg by done. by split.
Qed.

Lemma C2_tally_counts_every_accepted_vote_witness :
  tallySum (getTally (after defaultCandidates firstLeft)) =
  Some (length (attributed defaultCandidates firstLeft)).
Proof.
  refine (proj1
    (C2_tally_counts_every_accepted_vote defaultCandidates firstLeft _)).
  vm_compute. reflexivity.
Defined.

(** ** An accepted vote *)

(** C4. In a possible history, let a registered session that has not voted
    send a vote for a candidate of the configured list.  The handler adds
    one to that candidate's count and leaves the other counts and the order
    of the tally alone; it adds the session to the voted set and changes no
    other membership; the registry is unchanged.  It calls [sendToClient]
    first for the voter with vote_confirmed of that candidate and then, in
    registry order, once for every registered session with a tally_update
    carrying the new tally and the new size of the voted set, which is one
    more than before.  A message is transmitted on a socket exactly when the
    socket is open ([delivered], see [sent]). *)
Theorem C4_accepted_vote
    (cs : list string) (h : History) (rs : Env)
    (clientId : string) (ws : nat) (j : JSON) (c : string) :
  possible cs (at_ rs (message clientId ws (Some j)) :: h) = true →
  prop j "type" = Some (JStr "vote") →
  prop j "candidate" = Some (JStr c) →
  c ∈ cs →
  clientId ∉ votedClients (after cs h) →
  let s := after cs h in
  let s' := after cs (at_ rs (message clientId ws (Some j)) :: h) in
  (∃ n, Map_get c (votes s) = Some (Count n) ∧
        Map_get c (votes s') = Some (Count (S n))) ∧
  (∀ c', c' ≠ c → Map_get c' (votes s') = Map_get c' (votes s)) ∧
  (votes s').*1 = (votes s).*1 ∧
  votedClients s' = votedClients s ∪ {[clientId]} ∧
  clients s' = clients s ∧
  size (votedClients s') = S (size (votedClients s)) ∧
  lastSends cs (at_ rs (message clientId ws (Some j)) :: h) =
    sent rs ws (vote_confirmed c) ::
    map (λ entry : string * nat,
           sent rs entry.2
             (tally_update (getTally s') (size (votedClients s'))))
        (clients s').
Proof.
  intros [Hpos Hreg%bool_decide_eq_true]%andb_true_iff Hty Hcand Hc Hnv.
  destruct (possible_invariant cs h Hpos) as [_ _ _ _ _ Hvs].
  destruct (Hvs c Hc) as [n Hn].
  assert (j ≠ JNull) as Hnull by (by intros ->).
  assert (includes (candidates (after cs h)) (Some (JStr c)) = Some c) as Hinc.
  { rewrite after_candidates. simpl. by rewrite decide_True. }
  assert (onMessage rs clientId ws (Some j) (after cs h) =
          mkResult (Normal tt) (recorded clientId c (after cs h))
            (sent rs ws (vote_confirmed c) ::
             fanout rs (recorded clientId c (after cs h)))) as Hrun.
  { rewrite onMessage_vote, handleVote_run by done. cbv zeta.
    by rewrite decide_False, Hcand, Hinc, Hreg. }
  cbv zeta. cbn [after lastSends dispatch event environment]. rewrite Hrun.
  cbn [server sends]. unfold recorded, fanout; simpl. rewrite Hn. simpl.
  repeat split.
  - exists n. split; [done|]. by rewrite Map_get_set, decide_True.
  - intros c' Hne. by rewrite Map_get_set, decide_False.
  - apply Map_set_keys_present, Map_get_is_Some. eauto.
  - rewrite size_union by set_solver. rewrite size_singleton. lia.
Qed.

Lemma C4_accepted_vote_witness :
  lastSends defaultCandidates firstVoted =
  [ sent allOpen 1 (vote_confirmed "Candidate B");
    sent allOpen 1
      (tally_update
         [("Candidate A", Count 0); ("Candidate B", Count 1);
          ("Candidate C", Count 0)] 1) ].
Proof.
  pose proof (C4_accepted_vote defaultCandidates firstConnected allOpen
                "c1" 1
                (JObj [("type", JStr "vote");
                       ("candidate", JStr "Candidate B")])
                "Candidate B") as H.
  refine (eq_trans (proj2 (proj2 (proj2 (proj2 (proj2 (proj2
            (H _ _ _ _ _))))))) _).
  - vm_compute. reflexivity.
  - reflexivity.
  - reflexivity.
  - apply (bool_decide_unpack _). by vm_compute.
  - apply (bool_decide_unpack _). by vm_compute.
  - vm_compute. reflexivity.
Defined.

(** ** The snapshot *)

Lemma Map_set_counts c v (m : list (string * JsNum)) :
  (∃ n, v = Count n) →
  Forall (λ e : string * JsNum, ∃ n, e.2 = Count n) m →
  Forall (λ e : string * JsNum, ∃ n, e.2 = Count n) (Map_set c v m).
Proof.
  intros Hv. induction 1 as [|[c' v'] m Hv' Hm IH]; simpl.
  - by repeat constructor.
  - case_decide; by constructor.
Qed.

Lemma Map_get_elem {V} k (v : V) (m : list (string * V)) :
  Map_get k m = Some v → (k, v) ∈ m.
Proof.
  induction m as [|[k' v'] m IH]; simpl; [done|].
  case_decide; [intros [= ->]; subst; left | intros ?; right; eauto].
Qed.

Lemma votes_shape (cs : list string) (h : History) :
  NoDup cs →
  (votes (after cs h)).*1 = cs ∧
  Forall (λ e : string * JsNum, ∃ n, e.2 = Count n) (votes (after cs h)).
Proof.
  intros Hnd. induction h as [|o h [IHk IHv]].
  - split.
    + apply (zeroed_keys cs [] Hnd). intros c _. apply not_elem_of_nil.
    + eapply Forall_impl; [apply (zeroed_zero cs []); constructor|].
      intros e He. by exists 0.
  - cbn [after]. rewrite dispatch_votes.
    destruct (event o) as [id ws|id ws data|id|id]; try done.
    destruct (accepts (after cs h) id data) as [c|] eqn:Hacc; [|done].
    apply accepts_Some in Hacc as (_ & Hc & _).
    rewrite after_candidates, <- IHk in Hc.
    split; [by rewrite Map_set_keys_present|].
    apply Map_set_counts; [|done].
    apply Map_get_is_Some in Hc as [v Hv]. rewrite Hv.
    apply Map_get_elem in Hv.
    rewrite Forall_forall in IHv. destruct (IHv _ Hv) as [n Hn].
    simpl in Hn. subst v. by exists (S n).
Qed.

Lemma defaultCandidates_NoDup : NoDup defaultCandidates.
Proof. apply (bool_decide_unpack _). by vm_compute. Qed.

Lemma fanout_confirms_nothing rs s c :
  filter (λ snd, confirms c (payload snd) = true) (fanout rs s) = [].
Proof.
  unfold fanout. induction (clients s) as [|entry l IH]; [done|].
  rewrite fmap_cons, filter_cons. simpl. exact IH.
Qed.

Lemma onMessage_confirmations rs (clientId : string) (ws : nat) data s c :
  Map_get clientId (clients s) = Some ws →
  length (filter (λ snd, confirms c (payload snd) = true)
            (sends (onMessage rs clientId ws data s))) =
  match accepts s clientId data with
  | Some c0 => if decide (c0 = c) then 1 else 0
  | None => 0
  end.
Proof.
  intros Hreg. unfold accepts.
  destruct data as [j|]; [|by rewrite onMessage_other].
  destruct (strictEquals (prop j "type") "vote") eqn:Hv.
  - apply strictEquals_true in Hv.
    assert (j ≠ JNull) as Hnull by (by intros ->).
    rewrite onMessage_vote, handleVote_run by done. cbv zeta. rewrite Hreg.
    case_decide; [done|].
    destruct (includes _ _) as [c0|]; [|done]. simpl.
    rewrite filter_cons, fanout_confirms_nothing. simpl.
    destruct (decide (c0 = c)) as [->|Hne].
    + by rewrite bool_decide_eq_true_2, decide_True.
    + by rewrite bool_decide_eq_false_2, decide_False.
  - destruct (strictEquals (prop j "type") "request_tally") eqn:Hr.
    + apply strictEquals_true in Hr.
      by rewrite onMessage_request_tally, Hreg.
    + rewrite onMessage_other by (by intros ? [= <-]). rewrite Hreg. simpl.
      by destruct (_ || _).
Qed.

Lemma counts_are_confirmations cs (h : History) (c : string) :
  possible cs h = true → c ∈ cs →
  Map_get c (votes (after cs h)) = Some (Count (confirmed cs h c)).
Proof.
  intros Hpos Hc. induction h as [|[rs e] h IH].
  - simpl. pose proof (zeroed_get cs [] c) as Hz.
    by rewrite decide_True in Hz.
  - simpl in Hpos. apply andb_true_iff in Hpos as [Hpos Hen].
    specialize (IH Hpos). cbn [after confirmed]. rewrite dispatch_votes.
    destruct e as [id ws|id ws data|id|id]; simpl in *; try done.
    apply bool_decide_eq_true in Hen.
    unfold dispatch; simpl. rewrite (onMessage_confirmations _ _ _ _ _ _ Hen).
    destruct (accepts (after cs h) id data) as [c0|]; [|done].
    rewrite Map_get_set. destruct (decide (c = c0)) as [->|Hne].
    + by rewrite IH, decide_True.
    + by rewrite decide_False.
Qed.

Lemma Map_rebuild (f : string → JsNum) (cs : list string)
    (m : list (string * JsNum)) :
  m.*1 = cs → NoDup cs →
  (∀ c, c ∈ cs → Map_get c m = Some (f c)) →
  m = map (λ c, (c, f c)) cs.
Proof.
  revert cs. induction m as [|[k v] m IH]; intros cs <-; simpl; [done|].
  intros [Hk Hnd]%NoDup_cons Hget. f_equal.
  - pose proof (Hget k ltac:(left)) as Hkv.
    rewrite decide_True in Hkv by done. congruence.
  - apply IH; [done|done|]. intros c Hc.
    specialize (Hget c ltac:(by right)).
    rewrite decide_False in Hget; [done|]. by intros ->.
Qed.

(** C8. After every possible history of the server as it is configured,
    [getTally] returns one pair per configured candidate and nothing else,
    in the order of the candidate list, and the count of each candidate is
    the number of votes for it that the server has confirmed. *)
Theorem C8_snapshot_in_candidate_order (h : History) :
  possible defaultCandidates h = true →
  getTally (after defaultCandidates h) =
  map (λ candidate,
         (candidate, Count (confirmed defaultCandidates h candidate)))
      defaultCandidates.
Proof.
  intros Hpos.
  destruct (votes_shape defaultCandidates h defaultCandidates_NoDup)
    as [Hk _].
  apply Map_rebuild; [done | apply defaultCandidates_NoDup |].
  intros c Hc. by apply counts_are_confirmations.
Qed.

Lemma C8_snapshot_in_candidate_order_witness :
  getTally (after defaultCandidates secondAsked) =
  [("Candidate A", Count 0); ("Candidate B", Count 1);
   ("Candidate C", Count 0)].
Proof.
  refine (eq_trans (C8_snapshot_in_candidate_order secondAsked _) _).
  - vm_compute. reflexivity.
  - vm_compute. reflexivity.
Defined.

(** ** Start-up *)

(** [initializeCandidates] never raises: it ends normally and every
    candidate of the list then has count 0.  From [setupServer] the tally
    has an entry for nothing else.  (The code has no check of the candidate
    list and no error of its own for it; the list it is given is the
    literal of [setupServer].) *)
Lemma initializeCandidates_zeroes_every_candidate (cs : list string) :
  (∀ s, completion (initializeCandidates s) = Normal tt ∧
        ∀ c, c ∈ candidates s →
             Map_get c (votes (server (initializeCandidates s))) =
             Some (Count 0)) ∧
  completion (setupServerWith cs) = Normal tt ∧
  candidates (server (setupServerWith cs)) = cs ∧
  ∀ c, Map_get c (votes (server (setupServerWith cs))) =
       if decide (c ∈ cs) then Some (Count 0) else None.
Proof.
  split; [|split; [done|split; [done|]]].
  - intros s. rewrite initializeCandidates_run. split; [done|].
    intros c Hc. simpl. by rewrite zeroed_get, decide_True.
  - intros c. apply (zeroed_get cs [] c).
Qed.

(** ** Repeated requests *)

Lemma quiet_dispatch o s :
  quiet o = true →
  votes (server (dispatch o s)) = votes s ∧
  votedClients (server (dispatch o s)) = votedClients s.
Proof.
  unfold quiet, dispatch.
  destruct (event o) as [id ws|id ws data|id|id]; try done.
  intros Hq. rewrite onMessage_server.
  assert (accepts s id data = None) as ->; [|done].
  unfold accepts. destruct data as [j|]; [|done].
  by apply negb_true_iff in Hq as ->.
Qed.

Lemma quiet_run cs (mid h : History) :
  forallb quiet mid = true →
  votes (after cs (mid ++ h)) = votes (after cs h) ∧
  votedClients (after cs (mid ++ h)) = votedClients (after cs h).
Proof.
  induction mid as [|o mid IH]; [done|].
  simpl. intros [Ho Hmid]%andb_true_iff.
  destruct (quiet_dispatch o (after cs (mid ++ h)) Ho) as [-> ->].
  by apply IH.
Qed.

Lemma possible_app cs (later h : History) :
  possible cs (later ++ h) = true → possible cs h = true.
Proof.
  induction later as [|o later IH]; [done|].
  simpl. intros [? _]%andb_true_iff. by apply IH.
Qed.

(** C9. In a possible history, a request_tally of a registered session is
    answered by one call of [sendToClient], for the requester's socket, with
    a tally_update carrying the current tally and the size of the voted set;
    the server object stays as it was and nobody else is sent anything.  A
    second request_tally, from any registered session, after occurrences
    none of which is a vote message or a disconnect, is answered with the
    same tally and the same totalVotes. *)
Theorem C9_request_tally_reads_only
    (cs : list string) (h mid : History)
    (rs1 rs2 : Env) (id1 id2 : string) (ws1 ws2 : nat)
    (j1 j2 : JSON) :
  possible cs (at_ rs2 (message id2 ws2 (Some j2)) :: mid ++
               at_ rs1 (message id1 ws1 (Some j1)) :: h) = true →
  prop j1 "type" = Some (JStr "request_tally") →
  prop j2 "type" = Some (JStr "request_tally") →
  forallb quiet mid = true →
  let first := at_ rs1 (message id1 ws1 (Some j1)) :: h in
  let second := at_ rs2 (message id2 ws2 (Some j2)) :: mid ++ first in
  let snapshot :=
    tally_update (getTally (after cs h)) (size (votedClients (after cs h))) in
  lastSends cs first = [sent rs1 ws1 snapshot] ∧
  after cs first = after cs h ∧
  lastSends cs second = [sent rs2 ws2 snapshot] ∧
  after cs second = after cs (mid ++ first).
Proof.
  intros Hpos Hty1 Hty2 Hq. cbv zeta.
  pose proof Hpos as [Hpos2 Hreg2%bool_decide_eq_true]%andb_true_iff.
  apply possible_app in Hpos2 as [_ Hreg1%bool_decide_eq_true]%andb_true_iff.
  assert (after cs (at_ rs1 (message id1 ws1 (Some j1)) :: h) = after cs h)
    as Hfirst.
  { cbn [after dispatch event environment].
    by rewrite onMessage_request_tally. }
  destruct (quiet_run cs mid (at_ rs1 (message id1 ws1 (Some j1)) :: h) Hq)
    as [Hvotes Hvoted].
  rewrite Hfirst in Hvotes, Hvoted.
  repeat split; try done.
  - cbn [lastSends dispatch event environment].
    by rewrite onMessage_request_tally, Hreg1.
  - cbn [lastSends dispatch event environment].
    rewrite onMessage_request_tally, Hreg2 by done. cbn [sends].
    unfold getTally. by rewrite Hvotes, Hvoted.
  - cbn [after dispatch event environment].
    by rewrite onMessage_request_tally.
Qed.

Lemma C9_request_tally_reads_only_witness :
  lastSends defaultCandidates
    (at_ allOpen (message "c2" 2 request_tally) ::
     [at_ allOpen (message "c2" 2 None)] ++ secondAsked) =
  lastSends defaultCandidates secondAsked.
Proof.
  pose proof (C9_request_tally_reads_only defaultCandidates firstLeft
                [at_ allOpen (message "c2" 2 None)]
                allOpen allOpen "c2" "c2" 2 2
                (JObj [("type", JStr "request_tally")])
                (JObj [("type", JStr "request_tally")])) as H.
  cbv zeta in H.
  refine (let H' := H _ _ _ _ in
          eq_trans (proj1 (proj2 (proj2 H'))) (eq_sym (proj1 H'))).
  - vm_compute. reflexivity.
  - reflexivity.
  - reflexivity.
  - reflexivity.
Defined.

(** * Further properties of the handlers *)

(** ** The message handler as a whole *)

(** X1. The message handler never raises, whatever the frame, the client
    and the server object: the [try]/[catch] absorbs every exception.  It
    never touches the registry or the candidate list. *)
Theorem onMessage_never_raises
    (rs : Env) (s : VoteServer) (clientId : string) (ws : nat)
    (data : option JSON) :
  completion (onMessage rs clientId ws data s) = Normal tt ∧
  clients (server (onMessage rs clientId ws data s)) = clients s ∧
  candidates (server (onMessage rs clientId ws data s)) = candidates s.
Proof.
  split.
  - destruct data as [j|]; [|by rewrite onMessage_other].
    destruct (strictEquals (prop j "type") "vote") eqn:Hv.
    + apply strictEquals_true in Hv. rewrite onMessage_vote by done.
      cbv zeta.
      by destruct (handleVote rs clientId j s) as [[[]|e] s' out].
    + destruct (strictEquals (prop j "type") "request_tally") eqn:Hr.
      * apply strictEquals_true in Hr. by rewrite onMessage_request_tally.
      * rewrite onMessage_other; [done|]. by intros ? [= <-].
  - rewrite onMessage_server. by destruct (accepts s clientId data).
Qed.

(** X2. Which error a registered client gets for a frame that is neither a
    vote nor a request_tally.  'Invalid message format' answers a frame that
    [JSON.parse] rejects, the value [null], and a message whose [type]
    cannot be converted to a string, be it an object with an own [toString]
    or an array nested deeper than the stack allows; 'Unknown message type'
    answers every other message.  The reply goes to the sender's socket and
    nothing changes. *)
Theorem error_reply_for_other_frames
    (rs : Env) (s : VoteServer) (clientId : string) (ws : nat)
    (data : option JSON) :
  Map_get clientId (clients s) = Some ws →
  (∀ j, data = Some j →
        prop j "type" ≠ Some (JStr "vote") ∧
        prop j "type" ≠ Some (JStr "request_tally")) →
  onMessage rs clientId ws data s =
  mkResult (Normal tt) s
    [sent rs ws
       (error
          match data with
          | None => "Invalid message format"
          | Some j =>
              if isNull j || conversionRaises rs (prop j "type")
              then "Invalid message format"
              else "Unknown message type"
          end)].
Proof.
  intros Hreg Hother. rewrite onMessage_other.
  - destruct data as [j|]; [|done]. rewrite Hreg. by destruct (_ || _).
  - intros j Hj. destruct (Hother j Hj) as [Hv Hr].
    split; apply not_true_is_false; by rewrite strictEquals_true.
Qed.

Lemma error_reply_for_other_frames_witness :
  map payload
    (sends (onMessage allOpen "c2" 2
              (Some (JObj [("type", JObj [("toString", JNum "1")])]))
              (after defaultCandidates secondConnected))) =
    [error "Invalid message format"] ∧
  map payload
    (sends (onMessage allOpen "c2" 2
              (Some (JObj [("type", JStr "ping")]))
              (after defaultCandidates secondConnected))) =
    [error "Unknown message type"] ∧
  map payload
    (sends (onMessage (mkEnv (λ _, OPEN) (λ _, true)) "c2" 2
              (nestedType 200)
              (after defaultCandidates secondConnected))) =
    [error "Invalid message format"].
Proof.
  split; [|split].
  - rewrite (error_reply_for_other_frames allOpen _ "c2" 2
               (Some (JObj [("type", JObj [("toString", JNum "1")])]))).
    + reflexivity.
    + reflexivity.
    + intros j [= <-]. split; discriminate.
  - rewrite (error_reply_for_other_frames allOpen _ "c2" 2
               (Some (JObj [("type", JStr "ping")]))).
    + reflexivity.
    + reflexivity.
    + intros j [= <-]. split; discriminate.
  - rewrite (error_reply_for_other_frames (mkEnv (λ _, OPEN) (λ _, true))
               _ "c2" 2 (nestedType 200)).
    + reflexivity.
    + reflexivity.
    + intros j [= <-]. split; discriminate.
Defined.

(** X3. A vote that arrives for an identifier the registry no longer holds:
    [handleVote] records it (count and voted set) and then raises, because
    the confirmation is addressed to an undefined socket.  Nothing is rolled
    back; the message handler answers 'Invalid message format' on the
    connection's socket, and neither a vote_confirmed nor a tally_update is
    sent. *)
Theorem vote_of_unregistered_client_is_recorded
    (rs : Env) (s : VoteServer) (clientId : string) (ws : nat)
    (j : JSON) (c : string) :
  Map_get clientId (clients s) = None →
  clientId ∉ votedClients s →
  prop j "type" = Some (JStr "vote") →
  prop j "candidate" = Some (JStr c) →
  c ∈ candidates s →
  handleVote rs clientId j s =
    mkResult (Throw TypeError) (recorded clientId c s) [] ∧
  onMessage rs clientId ws (Some j) s =
    mkResult (Normal tt) (recorded clientId c s)
      [sent rs ws (error "Invalid message format")].
Proof.
  intros Hreg Hnv Hty Hcand Hc. assert (j ≠ JNull) as Hnull by (by intros ->).
  assert (handleVote rs clientId j s =
          mkResult (Throw TypeError) (recorded clientId c s) []) as Hrun.
  { rewrite handleVote_run by done.
    rewrite decide_False, Hcand, Hreg by done. simpl.
    by rewrite decide_True. }
  split; [done|]. by rewrite onMessage_vote, Hrun.
Qed.

Lemma vote_of_unregistered_client_is_recorded_witness :
  votes (server (onMessage allOpen "c1" 1 (vote_for "Candidate A")
                   (after defaultCandidates
                      [at_ allOpen (close "c1");
                       at_ allOpen (connection "c1" 1)]))) =
  [("Candidate A", Count 1); ("Candidate B", Count 0);
   ("Candidate C", Count 0)].
Proof.
  pose proof (vote_of_unregistered_client_is_recorded allOpen
                (after defaultCandidates
                   [at_ allOpen (close "c1"); at_ allOpen (connection "c1" 1)])
                "c1" 1
                (JObj [("type", JStr "vote");
                       ("candidate", JStr "Candidate A")])
                "Candidate A") as H.
  unshelve refine (let H' := H _ _ _ _ _ in
                   eq_trans (f_equal (λ r, votes (server r)) (proj2 H')) _).
  all: first [reflexivity | apply (bool_decide_unpack _); by vm_compute].
Defined.

(** ** Broadcast and disconnect *)

(** X4. [broadcastTally] never raises and leaves the server object as it
    is.  It calls [sendToClient] once for every registered client, in
    registry order, each time with the same tally_update (the current tally
    and the size of the voted set); the calls that transmit, which the
    method counts as [connectedClients], are those to the open sockets. *)
Theorem broadcastTally_reaches_every_client
    (rs : Env) (s : VoteServer) :
  broadcastTally rs s =
    mkResult (Normal tt) s
      (map (λ entry : string * nat,
              sent rs entry.2
                (tally_update (getTally s) (size (votedClients s))))
           (clients s)) ∧
  length (filter (λ o, delivered o = true) (sends (broadcastTally rs s))) =
    length (filter (λ entry : string * nat, readyState rs entry.2 = OPEN)
             (clients s)).
Proof.
  rewrite broadcastTally_run. split; [done|]. unfold fanout. simpl.
  induction (clients s) as [|entry l IH]; [done|].
  simpl. rewrite !filter_cons. simpl.
  destruct (decide (readyState rs entry.2 = OPEN)) as [Hopen|Hopen].
  - rewrite bool_decide_eq_true_2 by done.
    rewrite decide_True by done. simpl. by rewrite IH.
  - rewrite bool_decide_eq_false_2 by done.
    rewrite decide_False by done. done.
Qed.

Lemma Map_delete_filter {V} (k : string) (m : list (string * V)) :
  Map_delete k m = filter (λ entry : string * V, entry.1 ≠ k) m.
Proof.
  induction m as [|[k' v] m IH]; [done|].
  simpl. rewrite filter_cons. simpl. case_decide; subst.
  - by rewrite decide_False by (by intros []).
  - rewrite decide_True by done. by rewrite IH.
Qed.

Lemma Map_delete_absent {V} (k : string) (m : list (string * V)) :
  Map_get k m = None → Map_delete k m = m.
Proof.
  induction m as [|[k' v] m IH]; [done|].
  simpl. case_decide; [done|]. intros Hget. by rewrite IH.
Qed.

(** X5. The disconnect handler never raises and sends nothing.  It removes
    the client, and only that client, from the registry and from the voted
    set, keeps the order of the remaining clients, and leaves the counts and
    the candidate list alone.  Running it again changes nothing more. *)
Theorem onClose_removes_one_client (clientId : string) (s : VoteServer) :
  let s' := server (onClose clientId s) in
  completion (onClose clientId s) = Normal tt ∧
  sends (onClose clientId s) = [] ∧
  votes s' = votes s ∧ candidates s' = candidates s ∧
  clients s' = filter (λ entry : string * nat, entry.1 ≠ clientId) (clients s) ∧
  Map_get clientId (clients s') = None ∧
  (clientId ∉ votedClients s') ∧
  (∀ other, other ≠ clientId →
     Map_get other (clients s') = Map_get other (clients s) ∧
     (other ∈ votedClients s' ↔ other ∈ votedClients s)) ∧
  onClose clientId s' = onClose clientId s.
Proof.
  cbv zeta. rewrite onClose_run. simpl. repeat split; try done.
  - apply Map_delete_filter.
  - by rewrite Map_get_delete, decide_True.
  - set_solver.
  - by rewrite Map_get_delete, decide_False.
  - set_solver.
  - set_solver.
  - rewrite onClose_run. simpl. f_equal. unfold with_votedClients, with_clients.
    simpl. f_equal.
    + apply Map_delete_absent. by rewrite Map_get_delete, decide_True.
    + set_solver.
Qed.

(** ** One vote per session *)

Lemma attributed_grows cs (later h : History) (clientId : string) :
  clientId ∈ attributed cs h → clientId ∈ attributed cs (later ++ h).
Proof.
  intros Hin. induction later as [|o later IH]; [done|].
  simpl. apply elem_of_app. by right.
Qed.

(** X6. In a possible history, once a vote has been attributed to a session
    every later vote message of that session, whatever it names, is answered
    with 'You have already voted!' on the sender's socket alone and leaves
    the server object, the counts included, as it was. *)
Theorem no_second_vote
    (cs : list string) (h : History) (rs : Env)
    (clientId : string) (ws : nat) (j : JSON) :
  possible cs (at_ rs (message clientId ws (Some j)) :: h) = true →
  clientId ∈ attributed cs h →
  prop j "type" = Some (JStr "vote") →
  lastSends cs (at_ rs (message clientId ws (Some j)) :: h) =
    [sent rs ws (error "You have already voted!")] ∧
  after cs (at_ rs (message clientId ws (Some j)) :: h) = after cs h.
Proof.
  intros [Hpos Hreg%bool_decide_eq_true]%andb_true_iff Hattr Hty.
  destruct (possible_invariant cs h Hpos) as [_ _ _ Hv _ _].
  assert (clientId ∈ votedClients (after cs h)) as Hvoted.
  { apply Hv. split; [|done]. apply Map_get_is_Some. eauto. }
  assert (j ≠ JNull) as Hnull by (by intros ->).
  cbn [lastSends after dispatch event environment].
  rewrite onMessage_vote, handleVote_run by done. cbv zeta.
  by rewrite decide_True, Hreg.
Qed.

Lemma no_second_vote_witness :
  lastSends defaultCandidates
    (at_ allOpen (message "c1" 1 (vote_for "Candidate A")) ::
     secondConnected) =
  [sent allOpen 1 (error "You have already voted!")].
Proof.
  unshelve refine (proj1 (no_second_vote defaultCandidates secondConnected
                   allOpen "c1" 1
                   (JObj [("type", JStr "vote");
                          ("candidate", JStr "Candidate A")]) _ _ _)).
  - vm_compute. reflexivity.
  - apply (bool_decide_unpack _). by vm_compute.
  - reflexivity.
Defined.

(** X7. In a possible history the size of the voted set, which is what
    every tally_update reports as totalVotes, is the number of sessions
    with an attributed vote that are still registered.  It never exceeds
    the sum of the counts of the tally. *)
Theorem totalVotes_counts_registered_voters (cs : list string) (h : History) :
  possible cs h = true →
  size (votedClients (after cs h)) =
    length (filter (λ clientId,
                      is_Some (Map_get clientId (clients (after cs h))))
                   (attributed cs h)) ∧
  ∃ total, tallySum (getTally (after cs h)) = Some total ∧
           (size (votedClients (after cs h)) ≤ total)%nat.
Proof.
  intros Hpos. destruct (possible_invariant cs h Hpos) as [_ _ Hnd Hv Ht _].
  assert (size (votedClients (after cs h)) =
          length (filter (λ clientId,
                            is_Some (Map_get clientId (clients (after cs h))))
                         (attributed cs h))) as Hsize.
  { rewrite <- (size_list_to_set (C:=gset string)) by by apply NoDup_filter.
    f_equal. apply set_eq. intros id.
    rewrite Hv, elem_of_list_to_set, list_elem_of_filter, Map_get_is_Some.
    done. }
  split; [done|]. exists (length (attributed cs h)). split; [done|].
  rewrite Hsize. apply length_filter.
Qed.

Lemma totalVotes_counts_registered_voters_witness :
  size (votedClients (after defaultCandidates firstLeft)) =
  length (filter (λ clientId,
                    is_Some (Map_get clientId
                               (clients (after defaultCandidates firstLeft))))
                 (attributed defaultCandidates firstLeft)).
Proof.
  refine (proj1
    (totalVotes_counts_registered_voters defaultCandidates firstLeft _)).
  vm_compute. reflexivity.
Defined.

(** X8. In a possible history the sum of the counts never exceeds the
    number of connections made so far: votes cannot outnumber the sessions
    that ever existed. *)
Theorem votes_bounded_by_connections (cs : list string) (h : History) :
  possible cs h = true →
  ∃ total, tallySum (getTally (after cs h)) = Some total ∧
           (total ≤ length (issuedIds h))%nat.
Proof.
  intros Hpos. destruct (possible_invariant cs h Hpos) as [_ Hai Hnd _ Ht _].
  exists (length (attributed cs h)). split; [done|].
  apply submseteq_length, NoDup_submseteq; [done|]. intros id. apply Hai.
Qed.

Lemma votes_bounded_by_connections_witness :
  ∃ total,
    tallySum (getTally (after defaultCandidates secondAsked)) = Some total ∧
    (total ≤ length (issuedIds secondAsked))%nat.
Proof.
  refine (votes_bounded_by_connections defaultCandidates secondAsked _).
  vm_compute. reflexivity.
Defined.

(** ** The registry *)

Lemma Map_set_absent {V} (k : string) (v : V) (m : list (string * V)) :
  k ∉ m.*1 → Map_set k v m = m ++ [(k, v)].
Proof.
  induction m as [|[k' v'] m IH]; simpl; intros Hin; [done|].
  apply not_elem_of_cons in Hin as [Hne Hin].
  case_decide; [done|]. by rewrite IH.
Qed.

Lemma Map_get_NoDup {V} (k : string) (v : V) (m : list (string * V)) :
  NoDup (m.*1) → (k, v) ∈ m → Map_get k m = Some v.
Proof.
  induction m as [|[k' v'] m IH]; simpl; [by intros _ ?%elem_of_nil|].
  intros [Hk' Hnd]%NoDup_cons [[= -> ->]|Hin]%elem_of_cons.
  - by rewrite decide_True.
  - rewrite decide_False; [by apply IH|].
    intros ->. apply Hk', list_elem_of_fmap. by exists (k', v).
Qed.

Lemma filter_keeps_NoDup {A B} (f : A → B) (P : A → Prop)
    `{!∀ x, Decision (P x)} (l : list A) :
  NoDup (f <$> l) → NoDup (f <$> filter P l).
Proof.
  intros Hnd. eapply sublist_NoDup; [exact Hnd|].
  apply fmap_sublist, sublist_filter.
Qed.

Lemma registry_connected cs (h : History) :
  possible cs h = true →
  clients (after cs h) = reverse (connected h) ∧
  NoDup (connected h).*1 ∧ NoDup (connected h).*2 ∧
  ∀ entry, entry ∈ connected h →
           entry.1 ∈ issuedIds h ∧ entry.2 ∈ issuedSockets h.
Proof.
  induction h as [|[rs e] h IH]; simpl.
  - intros _. split; [done|]. split; [apply NoDup_nil_2|].
    split; [apply NoDup_nil_2|]. by intros ? ?%elem_of_nil.
  - intros [Hpos Hen]%andb_true_iff.
    destruct (IH Hpos) as (Hreg & Hids & Hsocks & Hissued). clear IH.
    destruct e as [id ws|id ws data|id|id]; simpl in *.
    + apply bool_decide_eq_true in Hen as [Hid Hws].
      assert (id ∉ (connected h).*1) as Hid'.
      { intros (e & -> & He)%list_elem_of_fmap. by apply Hid, Hissued. }
      assert (ws ∉ (connected h).*2) as Hws'.
      { intros (e & -> & He)%list_elem_of_fmap. by apply Hws, Hissued. }
      split; [|split; [by apply NoDup_cons|split; [by apply NoDup_cons|]]].
      * unfold dispatch; simpl. rewrite Hreg, reverse_cons.
        apply Map_set_absent. by rewrite fmap_reverse, elem_of_reverse.
      * intros entry [->|He]%elem_of_cons; simpl.
        -- split; left.
        -- destruct (Hissued entry He). split; by right.
    + split; [|done]. unfold dispatch; simpl. rewrite onMessage_server.
      by destruct (accepts (after cs h) id data).
    + split; [|split; [by apply filter_keeps_NoDup|
                       split; [by apply filter_keeps_NoDup|]]].
      * unfold dispatch; simpl.
        by rewrite Map_delete_filter, Hreg, filter_reverse.
      * intros entry [_ He]%list_elem_of_filter. by apply Hissued.
    + done.
Qed.

(** X9. In a possible history the registry holds exactly the connections
    made and not closed since, in the order in which they were made, which
    is the order of a broadcast.  No identifier and no socket is registered
    twice, so a broadcast calls [sendToClient] once per connection. *)
Theorem registry_is_the_open_connections (cs : list string) (h : History) :
  possible cs h = true →
  clients (after cs h) = reverse (connected h) ∧
  NoDup (clients (after cs h)).*1 ∧
  NoDup (clients (after cs h)).*2.
Proof.
  intros Hpos. destruct (registry_connected cs h Hpos) as (-> & Hi & Hs & _).
  rewrite !fmap_reverse. split; [done|].
  split; (eapply NoDup_Permutation_proper; [apply reverse_Permutation|done]).
Qed.

Lemma registry_is_the_open_connections_witness :
  clients (after defaultCandidates firstLeft) = reverse (connected firstLeft).
Proof.
  refine (proj1
    (registry_is_the_open_connections defaultCandidates firstLeft _)).
  vm_compute. reflexivity.
Defined.

Lemma onMessage_targets rs (clientId : string) (ws : nat) data s snd :
  Map_get clientId (clients s) = Some ws →
  snd ∈ sends (onMessage rs clientId ws data s) →
  ∃ entry, entry ∈ clients s ∧ target snd = entry.2.
Proof.
  intros Hreg.
  assert (∀ text, snd ∈ [sent rs ws text] →
            ∃ entry, entry ∈ clients s ∧ target snd = entry.2) as Hone.
  { intros text ->%list_elem_of_singleton. exists (clientId, ws).
    split; [by apply Map_get_elem | done]. }
  destruct data as [j|]; [|rewrite onMessage_other by done; apply Hone].
  destruct (strictEquals (prop j "type") "vote") eqn:Hv.
  - apply strictEquals_true in Hv.
    assert (j ≠ JNull) as Hnull by (by intros ->).
    rewrite onMessage_vote, handleVote_run by done. cbv zeta. rewrite Hreg.
    case_decide; [apply Hone|].
    destruct (includes _ _) as [c|]; [|apply Hone]. simpl.
    intros [->|(e & -> & He)%list_elem_of_fmap]%elem_of_cons.
    + apply (Hone (vote_confirmed c)). left.
    + by exists e.
  - destruct (strictEquals (prop j "type") "request_tally") eqn:Hr.
    + apply strictEquals_true in Hr.
      rewrite onMessage_request_tally, Hreg by done. apply Hone.
    + rewrite onMessage_other by (by intros ? [= <-]). rewrite Hreg. simpl.
      destruct (_ || _); apply Hone.
Qed.

(** X10. In a possible history every call of [sendToClient] that a handler
    makes is for the socket of a client that is registered when the handler
    ends: nothing is ever addressed to a connection that has been closed,
    and the disconnect handler itself sends nothing. *)
Theorem sends_only_to_registered_sockets
    (cs : list string) (h : History) (snd : Send) :
  possible cs h = true →
  snd ∈ lastSends cs h →
  ∃ clientId, Map_get clientId (clients (after cs h)) = Some (target snd).
Proof.
  destruct h as [|[rs e] h]; [by intros _ ?%elem_of_nil|].
  intros [Hpos Hen]%andb_true_iff.
  destruct e as [id ws|id ws data|id|id]; cbn [lastSends after event].
  - unfold dispatch; simpl. intros ->%list_elem_of_singleton.
    exists id. simpl. by rewrite Map_get_set, decide_True.
  - apply bool_decide_eq_true in Hen. unfold dispatch; simpl.
    intros (entry & Hentry & ->)%(onMessage_targets _ _ _ _ _ _ Hen).
    destruct (registry_connected cs h Hpos) as (Hreg & Hids & _).
    exists entry.1.
    assert (clients (server (onMessage rs id ws data (after cs h))) =
            clients (after cs h)) as ->.
    { rewrite onMessage_server. by destruct (accepts _ _ _). }
    apply Map_get_NoDup; [|by destruct entry].
    rewrite Hreg, fmap_reverse.
    eapply NoDup_Permutation_proper; [apply reverse_Permutation|done].
  - by intros ?%elem_of_nil.
  - by intros ?%elem_of_nil.
Qed.

Lemma sends_only_to_registered_sockets_witness :
  ∃ clientId,
    Map_get clientId (clients (after defaultCandidates secondAsked)) = Some 2.
Proof.
  refine (sends_only_to_registered_sockets defaultCandidates secondAsked
            (sent allOpen 2
               (tally_update
                  [("Candidate A", Count 0); ("Candidate B", Count 1);
                   ("Candidate C", Count 0)] 0)) _ _).
  - vm_compute. reflexivity.
  - vm_compute. left.
Defined.

Lemma issuedIds_grow (later h : History) (clientId : string) :
  clientId ∈ issuedIds h → clientId ∈ issuedIds (later ++ h).
Proof.
  intros Hin. induction later as [|o later IH]; [done|].
  simpl. destruct (event o); try done. by right.
Qed.

(** X11. In a possible history a session that has disconnected is gone for
    good: whatever happens afterwards its identifier is neither in the
    registry nor in the voted set again, because identifiers are not
    reused. *)
Theorem closed_session_stays_closed
    (cs : list string) (h later : History) (rs : Env)
    (clientId : string) :
  possible cs (later ++ at_ rs (close clientId) :: h) = true →
  Map_get clientId
    (clients (after cs (later ++ at_ rs (close clientId) :: h))) = None ∧
  clientId ∉ votedClients (after cs (later ++ at_ rs (close clientId) :: h)).
Proof.
  intros Hpos.
  assert (Map_get clientId
            (clients (after cs (later ++ at_ rs (close clientId) :: h)))
          = None) as Hgone.
  { induction later as [|[rs' e] later IH].
    - simpl. unfold dispatch; simpl. by rewrite Map_get_delete, decide_True.
    - simpl in Hpos. apply andb_true_iff in Hpos as [Hpos Hen].
      specialize (IH Hpos). cbn [app after].
      destruct e as [id ws|id ws data|id|id]; unfold dispatch; simpl.
      + rewrite Map_get_set. case_decide as Heq; [|done]. subst id.
        apply bool_decide_eq_true in Hen as [Hfresh _]. destruct Hfresh.
        apply issuedIds_grow. simpl.
        apply possible_app in Hpos. simpl in Hpos.
        apply andb_true_iff in Hpos as [Hpos Hreg%bool_decide_eq_true].
        apply (inv_clients_issued _ _ (possible_invariant cs h Hpos)).
        by apply Map_get_is_Some.
      + rewrite onMessage_server. by destruct (accepts _ _ _).
      + rewrite Map_get_delete. by case_decide.
      + done. }
  split; [done|]. intros Hvoted.
  apply (inv_voted _ _ (possible_invariant cs _ Hpos)) in Hvoted as [Hreg _].
  apply Map_get_is_Some in Hreg as [? Hreg]. congruence.
Qed.

Lemma closed_session_stays_closed_witness :
  Map_get "c1" (clients (after defaultCandidates secondAsked)) = None.
Proof.
  refine (proj1 (closed_session_stays_closed defaultCandidates
                   secondConnected
                   [at_ allOpen (message "c2" 2 request_tally)]
                   allOpen "c1" _)).
  vm_compute. reflexivity.
Defined.

(** ** Connecting *)

(** X12. In a possible history a connection is answered with one welcome
    message, sent to the new socket alone, that carries the new identifier,
    the configured candidate list and the current tally, whose counts add up
    to the votes attributed so far.  The new client joins the end of the
    registry, has not voted, and the counts and the voted set stay as they
    were. *)
Theorem connection_is_welcomed
    (cs : list string) (h : History) (rs : Env)
    (clientId : string) (ws : nat) :
  possible cs (at_ rs (connection clientId ws) :: h) = true →
  let s := after cs h in
  let s' := after cs (at_ rs (connection clientId ws) :: h) in
  lastSends cs (at_ rs (connection clientId ws) :: h) =
    [sent rs ws (welcome clientId cs (getTally s))] ∧
  tallySum (getTally s) = Some (length (attributed cs h)) ∧
  clients s' = clients s ++ [(clientId, ws)] ∧
  votes s' = votes s ∧
  votedClients s' = votedClients s ∧
  clientId ∉ votedClients s'.
Proof.
  intros [Hpos [Hfresh _]%bool_decide_eq_true]%andb_true_iff. cbv zeta.
  destruct (possible_invariant cs h Hpos) as [Hci _ _ Hv Ht _].
  assert (clientId ∉ (clients (after cs h)).*1) as Hnew
    by (intros Hin; by apply Hfresh, Hci).
  cbn [lastSends after dispatch event environment].
  rewrite onConnection_run. cbv zeta. cbn [sends server].
  rewrite after_candidates. simpl. repeat split; try done.
  - by apply Map_set_absent.
  - intros [Hin _]%Hv. done.
Qed.

Lemma connection_is_welcomed_witness :
  lastSends defaultCandidates secondConnected =
  [sent allOpen 2
     (welcome "c2" defaultCandidates
        [("Candidate A", Count 0); ("Candidate B", Count 1);
         ("Candidate C", Count 0)])].
Proof.
  refine (proj1 (connection_is_welcomed defaultCandidates firstVoted
                   allOpen "c2" 2 _)).
  vm_compute. reflexivity.
Defined.

(** X13. In a possible history a client that connects and disconnects
    without anything in between leaves the server object exactly as it was
    before the connection. *)
Theorem connect_then_close_restores
    (cs : list string) (h : History) (rs rs' : Env)
    (clientId : string) (ws : nat) :
  possible cs (at_ rs' (close clientId) ::
               at_ rs (connection clientId ws) :: h) = true →
  after cs (at_ rs' (close clientId) ::
            at_ rs (connection clientId ws) :: h) = after cs h.
Proof.
  intros [[Hpos [Hfresh _]%bool_decide_eq_true]%andb_true_iff _]%andb_true_iff.
  destruct (possible_invariant cs h Hpos) as [Hci _ _ Hv _ _].
  assert (clientId ∉ (clients (after cs h)).*1) as Hnew
    by (intros Hin; by apply Hfresh, Hci).
  assert (clientId ∉ votedClients (after cs h)) as Hnv
    by (intros [Hin _]%Hv; done).
  cbn [after dispatch event environment].
  rewrite onConnection_run. cbv zeta. cbn [server]. rewrite onClose_run.
  destruct (after cs h) as [cl vs vc cands]. simpl in *.
  unfold with_votedClients, with_clients. simpl. f_equal.
  - rewrite Map_set_absent, Map_delete_filter by done.
    rewrite filter_app, filter_cons, filter_nil. simpl.
    rewrite decide_False by (by intros []). rewrite app_nil_r.
    rewrite <- Map_delete_filter. apply Map_delete_absent.
    by apply Map_get_None.
  - set_solver.
Qed.

Lemma connect_then_close_restores_witness :
  after defaultCandidates
    (at_ allOpen (close "c3") :: at_ allOpen (connection "c3" 3) ::
     secondConnected) =
  after defaultCandidates secondConnected.
Proof.
  refine (connect_then_close_restores defaultCandidates secondConnected
            allOpen allOpen "c3" 3 _).
  vm_compute. reflexivity.
Defined.

(** ** Counts *)

Lemma count_step o (s : VoteServer) (c : string) (n : nat) :
  Map_get c (votes s) = Some (Count n) →
  Map_get c (votes (server (dispatch o s))) = Some (Count n) ∨
  Map_get c (votes (server (dispatch o s))) = Some (Count (S n)).
Proof.
  intros Hn. rewrite dispatch_votes.
  destruct (event o) as [id ws|id ws data|id|id]; try by left.
  destruct (accepts s id data) as [c'|]; [|by left].
  rewrite Map_get_set. case_decide; [subst c'|by left].
  right. by rewrite Hn.
Qed.

(** X14. A count never decreases and no event raises it by more than one:
    after any further occurrences, possible or not, a candidate's count is
    at least what it was and at most that plus their number. *)
Theorem counts_only_grow
    (cs : list string) (h later : History) (c : string) (n : nat) :
  Map_get c (votes (after cs h)) = Some (Count n) →
  ∃ n', Map_get c (votes (after cs (later ++ h))) = Some (Count n') ∧
        (n ≤ n' ≤ n + length later)%nat.
Proof.
  intros Hn. induction later as [|o later (n' & Hn' & Hle)].
  - exists n. split; [done|]. simpl. lia.
  - cbn [app after length].
    destruct (count_step o _ c n' Hn') as [Hsame|Hup].
    + exists n'. split; [done|]. lia.
    + exists (S n'). split; [done|]. lia.
Qed.

Lemma counts_only_grow_witness :
  ∃ n', Map_get "Candidate B" (votes (after defaultCandidates secondAsked))
        = Some (Count n') ∧
        (1 ≤ n' ≤ 1 + 3)%nat.
Proof.
  refine (counts_only_grow defaultCandidates firstVoted
            [at_ allOpen (message "c2" 2 request_tally);
             at_ allOpen (close "c1");
             at_ allOpen (connection "c2" 2)]
            "Candidate B" 1 _).
  reflexivity.
Defined.

(** ** When a vote counts *)

(** X15. A message run attributes a vote to its client exactly when the
    client is not in the voted set and the message is an object whose
    [type] is the string 'vote' and whose [candidate] is a string of the
    candidate list.  Whether the client is registered plays no part. *)
Theorem vote_accepted_iff
    (rs : Env) (s : VoteServer) (clientId : string) (ws : nat)
    (data : option JSON) :
  clientId ∈ marksVoted s (at_ rs (message clientId ws data)) ↔
  (clientId ∉ votedClients s) ∧
  ∃ j c, data = Some j ∧ prop j "type" = Some (JStr "vote") ∧
         prop j "candidate" = Some (JStr c) ∧ c ∈ candidates s.
Proof.
  rewrite marksVoted_accepts. simpl. split.
  - destruct (accepts s clientId data) as [c|] eqn:Hacc;
      [|by intros ?%elem_of_nil].
    intros _. apply accepts_Some in Hacc as (Hnv & Hc & j & -> & Hty & Hcand).
    split; [done|]. by exists j, c.
  - intros (Hnv & j & c & -> & Hty & Hcand & Hc). unfold accepts.
    rewrite Hty, Hcand. simpl.
    rewrite decide_False, decide_True by done. left.
Qed.
